(** * UART terminal session component (os/src/drivers/uart/uart_component.h)

    A shallow embedding of [Uart::Session_component] and [Uart::Root], and
    the properties of the terminal-size probe, the bulk transfer through the
    I/O buffer, the signal handlers and the policy-driven session creation.

    Conventions
    - a [char] / [unsigned char] is a [byte]; an [unsigned] is a [Z] in
      [0, 2^32) with the wrap-around written out; a [size_t] is an [N];
    - the driver behind [Uart::Driver &_driver] is an interface (class
      [Driver.Driver]); the session code is written once, over any instance;
    - member functions are state transformers over the session object; the
      unbounded loops of the source take a [fuel] bound on their iterations
      and end in [Spin] when it is used up. *)

From Stdlib Require Import ZArith NArith Strings.Byte Lia.
From stdpp Require Import base option list strings gmap.

Local Open Scope Z_scope.

(** ** Outcomes of a member function *)

(** The exceptions the component sees or raises. *)
Inductive Exception : Type :=
| Nonexistent_attribute   (* Xml_node::Nonexistent_attribute *)
| No_policy_defined       (* Session_policy::No_policy_defined *)
| Unavailable.            (* Root::Unavailable *)

(** A call returns ([Done]), leaves by an exception ([Throw]) or is still
    inside a loop when the fuel is used up ([Spin]); each carries the state
    reached. *)
Inductive outcome (St A : Type) : Type :=
| Done (a : A) (s : St)
| Throw (e : Exception) (s : St)
| Spin (s : St).
Arguments Done {St A} a s.
Arguments Throw {St A} e s.
Arguments Spin {St A} s.

Definition M (St A : Type) : Type := St -> outcome St A.

Definition ret {St A} (a : A) : M St A := fun s => Done a s.

Definition bind {St A B} (m : M St A) (k : A -> M St B) : M St B :=
  fun s => match m s with
           | Done a s' => k a s'
           | Throw e s' => Throw e s'
           | Spin s' => Spin s'
           end.

Definition throw {St A} (e : Exception) : M St A := fun s => Throw e s.
Definition spin {St A} : M St A := fun s => Spin s.
Definition get {St} : M St St := fun s => Done s s.
Definition modify {St} (f : St -> St) : M St unit := fun s => Done tt (f s).

(** [try m catch h]: an exception of [m] is handed to [h] in the state in
    which it was thrown. *)
Definition try_catch {St A} (m : M St A) (h : Exception -> M St A) : M St A :=
  fun s => match m s with
           | Throw e s' => h e s'
           | o => o
           end.

Notation "x <- m ;; k" := (bind m (fun x => k))
  (at level 90, m at next level, right associativity).
Notation "m ;;; k" := (bind m (fun _ => k))
  (at level 90, right associativity).

(** The state an outcome ends in. *)
Definition final {St A} (o : outcome St A) : St :=
  match o with Done _ s | Throw _ s | Spin s => s end.

(** The value an outcome returns, if it returns. *)
Definition result {St A} (o : outcome St A) : option A :=
  match o with Done a _ => Some a | _ => None end.

(** ** Characters *)

Definition code (c : byte) : Z := Z.of_N (Byte.to_N c).

(** Modelled from the spec: [is_digit] and [digit] of util/string.h, which is
    not part of the sources at hand. The spec reads a "decimal number ...
    digit-by-digit; parsing stops at the first non-digit character": a digit
    is one of '0'..'9' and its value is its distance from '0'. *)
Definition is_digit (c : byte) : bool := (48 <=? code c) && (code c <=? 57).
Definition digit (c : byte) : Z := code c - 48.

(** [unsigned] arithmetic. *)
Definition unsigned_max : Z := 2 ^ 32.
Definition to_unsigned (z : Z) : Z := z mod unsigned_max.

(** ** Data *)

(** Terminal::Session::Size, built as [Size(width, height)]. *)
Record Size : Type := mkSize { width : Z; height : Z }.

(** A signal-context capability; a default-constructed one is invalid. *)
Inductive Signal_context_capability : Type :=
| Invalid_cap
| Cap (id : nat).

Definition valid (sigh : Signal_context_capability) : bool :=
  match sigh with Invalid_cap => false | Cap _ => true end.

(** ** The driver interface (uart_driver.h) *)

Module Driver.

(** [Uart::Driver]: the four virtual functions the session calls, over a
    driver state [D]. [get_char] is total here; what it returns when no
    character is available is the instance's business (the driver
    documents it as undefined), and [get_char_guarded] below shows that
    the session never asks. *)
Class Driver (D : Type) : Type := {
  char_avail : D -> bool * D;
  get_char : D -> byte * D;
  put_char : byte -> D -> D;
  baud_rate : N -> D -> D
}.

End Driver.

(** ** The session object *)

Definition IO_BUFFER_SIZE : N := 4096.

(** The fields of [Session_component], and [signals]: the signals the
    session has submitted so far through [Signal_transmitter], oldest
    first. [_char_avail_callback] is the [sigh] member of the functor. *)
Record Session_component (D : Type) : Type := mkSession {
  _io_buffer : list byte;
  _char_avail_callback : Signal_context_capability;
  _driver : D;
  _size : Size;
  signals : list Signal_context_capability
}.
Arguments mkSession {D}.
Arguments _io_buffer {D}.
Arguments _char_avail_callback {D}.
Arguments _driver {D}.
Arguments _size {D}.
Arguments signals {D}.

Section Session.

Context {D : Type} {Drv : Driver.Driver D}.

Local Abbreviation Session := (Session_component D).

Definition set_io_buffer (b : list byte) (s : Session) : Session :=
  mkSession b (_char_avail_callback s) (_driver s) (_size s) (signals s).
Definition set_sigh (c : Signal_context_capability) (s : Session) : Session :=
  mkSession (_io_buffer s) c (_driver s) (_size s) (signals s).
Definition set_driver (d : D) (s : Session) : Session :=
  mkSession (_io_buffer s) (_char_avail_callback s) d (_size s) (signals s).
Definition set_size (z : Size) (s : Session) : Session :=
  mkSession (_io_buffer s) (_char_avail_callback s) (_driver s) z (signals s).
Definition set_signals (l : list Signal_context_capability) (s : Session) : Session :=
  mkSession (_io_buffer s) (_char_avail_callback s) (_driver s) (_size s) l.

(** Calls through [_driver]. *)
Definition driver_char_avail : M Session bool :=
  fun s => let '(b, d) := Driver.char_avail (_driver s) in Done b (set_driver d s).
Definition driver_get_char : M Session byte :=
  fun s => let '(c, d) := Driver.get_char (_driver s) in Done c (set_driver d s).
Definition driver_put_char (c : byte) : M Session unit :=
  modify (fun s => set_driver (Driver.put_char c (_driver s)) s).
Definition driver_baud_rate (bits : N) : M Session unit :=
  modify (fun s => set_driver (Driver.baud_rate bits (_driver s)) s).

(** [Genode::Signal_transmitter(sigh).submit()] *)
Definition submit (sigh : Signal_context_capability) : M Session unit :=
  modify (fun s => set_signals (signals s ++ [sigh]) s).

(** [Char_avail_callback::operator ()] *)
Definition char_avail_callback : M Session unit :=
  s <- get ;;
  if valid (_char_avail_callback s) then submit (_char_avail_callback s)
  else ret tt.

(** [while (!_driver.char_avail());] *)
Fixpoint _poll_char_wait (fuel : nat) : M Session unit :=
  match fuel with
  | O => spin
  | S fuel' =>
      b <- driver_char_avail ;;
      if negb b then _poll_char_wait fuel' else ret tt
  end.

Definition _poll_char (fuel : nat) : M Session byte :=
  _poll_char_wait fuel ;;;
  driver_get_char.

(** [_put_string]: one [put_char] per character of the C string, up to
    the first NUL (or the end of the literal, where the terminating NUL
    sits). *)
Fixpoint _put_string (s : list byte) : M Session unit :=
  match s with
  | [] => ret tt
  | c :: s' =>
      if Byte.eqb c x00 then ret tt
      else driver_put_char c ;;; _put_string s'
  end.

(** [_read_number]: the loop [for (;;)] with the out-parameter [result]
    as an accumulator; returns the terminating character and [result]. *)
Fixpoint _read_number_loop (poll_fuel fuel : nat) (result : Z)
  : M Session (byte * Z) :=
  match fuel with
  | O => spin
  | S fuel' =>
      c <- _poll_char poll_fuel ;;
      if negb (is_digit c) then ret (c, result)
      else _read_number_loop poll_fuel fuel' (to_unsigned (result * 10 + digit c))
  end.

Definition _read_number (fuel : nat) : M Session (byte * Z) :=
  _read_number_loop fuel fuel 0.

(** [for (; _driver.char_avail(); _driver.get_char());] *)
Fixpoint flush_incoming (fuel : nat) : M Session unit :=
  match fuel with
  | O => spin
  | S fuel' =>
      b <- driver_char_avail ;;
      if b then driver_get_char ;;; flush_incoming fuel' else ret tt
  end.

(** The two string literals of [_detect_size]. *)
Definition set_cursor_sequence : list byte :=
  x1b :: String.list_byte_of_string "[1;199r" ++ x1b :: String.list_byte_of_string "[199;255H".
Definition request_cursor_sequence : list byte :=
  x1b :: String.list_byte_of_string "[6n".

(** [_detect_size]; the short-circuit [&&] chain is the nesting of the
    conditionals, [PINF] prints to the log and is left out. *)
Definition _detect_size (fuel : nat) : M Session Size :=
  _put_string set_cursor_sequence ;;;
  flush_incoming fuel ;;;
  _put_string request_cursor_sequence ;;;
  c1 <- _poll_char fuel ;;
  if Byte.eqb c1 x1b then
    c2 <- _poll_char fuel ;;
    if Byte.eqb c2 "["%byte then
      r1 <- _read_number fuel ;;
      if Byte.eqb (r1.1) ";"%byte then
        r2 <- _read_number fuel ;;
        if Byte.eqb (r2.1) "R"%byte then ret (mkSize (r2.2) (r1.2))
        else ret (mkSize 0 0)
      else ret (mkSize 0 0)
    else ret (mkSize 0 0)
  else ret (mkSize 0 0).

(** *** Uart and Terminal session interface *)

Definition baud_rate (bits_per_second : N) : M Session unit :=
  driver_baud_rate bits_per_second.

Definition size : M Session Size :=
  s <- get ;; ret (_size s).

Definition avail : M Session bool := driver_char_avail.

(** [_io_buffer.size()] and the accesses [io_buf[n]]. A load outside the
    buffer has no counterpart in the source (both loops stay below
    [_io_buffer.size()]); it reads NUL here. *)
Definition io_buffer_size (s : Session) : N := N.of_nat (length (_io_buffer s)).
Definition io_buf_store (n : N) (c : byte) (s : Session) : Session :=
  set_io_buffer (<[N.to_nat n := c]> (_io_buffer s)) s.
Definition io_buf_load (s : Session) (i : N) : byte :=
  default x00 (_io_buffer s !! N.to_nat i).

(** The loop of [_read], [while ((n < sz) && _driver.char_avail())], by
    recursion on [k = sz - n]: [n < sz] is [k] being a successor, and
    [char_avail] is only asked then. *)
Fixpoint _read_loop (k : nat) (n : N) : M Session N :=
  match k with
  | O => ret n
  | S k' =>
      b <- driver_char_avail ;;
      if b then
        c <- driver_get_char ;;
        modify (io_buf_store n c) ;;;
        _read_loop k' (n + 1)%N
      else ret n
  end.

Definition _read (dst_len : N) : M Session N :=
  s <- get ;;
  let sz := N.min dst_len (io_buffer_size s) in
  _read_loop (N.to_nat sz) 0%N.

(** The loop of [_write], [for (i = 0; i < num_bytes; i++)], by recursion
    on [k = num_bytes - i]. *)
Fixpoint _write_loop (k : nat) (i : N) : M Session unit :=
  match k with
  | O => ret tt
  | S k' =>
      s <- get ;;
      driver_put_char (io_buf_load s i) ;;;
      _write_loop k' (i + 1)%N
  end.

Definition _write (num_bytes : N) : M Session unit :=
  s <- get ;;
  let num_bytes := N.min num_bytes (io_buffer_size s) in
  _write_loop (N.to_nat num_bytes) 0%N.

(** [_dataspace] hands out the capability of [_io_buffer]; the
    capability itself is not modelled. *)
Definition _dataspace : M Session unit := ret tt.

Definition connected_sigh (sigh : Signal_context_capability) : M Session unit :=
  submit sigh.

Definition read_avail_sigh (sigh : Signal_context_capability) : M Session unit :=
  modify (set_sigh sigh) ;;;
  b <- driver_char_avail ;;
  if b then char_avail_callback else ret tt.

Definition read (dst_len : N) : M Session N := ret 0%N.
Definition write (num_bytes : N) : M Session N := ret 0%N.

(** *** The operations a session serves *)

(** What reaches a session after its construction: the RPC functions of
    the interface, and the driver invoking the callback it was created
    with. *)
Inductive Request : Type :=
| Call_baud_rate (bits_per_second : N)
| Call_size
| Call_avail
| Call__read (dst_len : N)
| Call__write (num_bytes : N)
| Call__dataspace
| Call_connected_sigh (sigh : Signal_context_capability)
| Call_read_avail_sigh (sigh : Signal_context_capability)
| Call_read (dst_len : N)
| Call_write (num_bytes : N)
| Driver_char_avail_callback.

Inductive Reply : Type :=
| Reply_void
| Reply_size (z : Size)
| Reply_bool (b : bool)
| Reply_count (n : N).

Definition dispatch (r : Request) : M Session Reply :=
  match r with
  | Call_baud_rate bits => baud_rate bits ;;; ret Reply_void
  | Call_size => z <- size ;; ret (Reply_size z)
  | Call_avail => b <- avail ;; ret (Reply_bool b)
  | Call__read n => k <- _read n ;; ret (Reply_count k)
  | Call__write n => _write n ;;; ret Reply_void
  | Call__dataspace => _dataspace ;;; ret Reply_void
  | Call_connected_sigh sigh => connected_sigh sigh ;;; ret Reply_void
  | Call_read_avail_sigh sigh => read_avail_sigh sigh ;;; ret Reply_void
  | Call_read n => k <- read n ;; ret (Reply_count k)
  | Call_write n => k <- write n ;; ret (Reply_count k)
  | Driver_char_avail_callback => char_avail_callback ;;; ret Reply_void
  end.

(** The requests of a list, one after the other; the replies are dropped. *)
Fixpoint serve (rs : list Request) : M Session unit :=
  match rs with
  | [] => ret tt
  | r :: rs' => dispatch r ;;; serve rs'
  end.

End Session.

(** ** Session creation ([Uart::Root]) *)

Module Driver_factory.

(** [Uart::Driver_factory::create(index, baudrate, callback)]: the driver
    of UART [index]. The callback is the session's own functor, see
    [Driver_char_avail_callback]. *)
Class Driver_factory (D : Type) : Type := {
  create : Z -> Z -> D
}.

End Driver_factory.

(** What a session creation takes from the system, oldest first: the RAM
    dataspaces allocated (by size), the drivers the factory created (by
    index and baud rate), and the session objects taken from [md_alloc]. *)
Record Resources : Type := mkResources {
  dataspaces : list N;
  drivers : list (Z * Z);
  session_objects : nat
}.

(** An XML node of the configuration, as its attributes. *)
Abbreviation Xml_node := (gmap string string).

Section Root.

Context {D : Type} {Drv : Driver.Driver D} {Fac : Driver_factory.Driver_factory D}.

(** The parts of the framework [_create_session] calls and that are not
    in this file's sources: [Session_label(args)], the policy lookup of
    [Session_policy(label)] ([None]: no policy matches), and
    [Attribute::value(&out)] as the content of [out] after the call, from
    the attribute's text and the content before. *)
Variable Session_label : string -> string.
Variable Session_policy : string -> option Xml_node.
Variable value : string -> Z -> Z.

Definition policy_for (label : string) : M Resources Xml_node :=
  match Session_policy label with
  | Some node => ret node
  | None => throw No_policy_defined
  end.

Definition attribute (node : Xml_node) (name : string) : M Resources string :=
  match node !! name with
  | Some text => ret text
  | None => throw Nonexistent_attribute
  end.

Definition has_value (text : string) (v : string) : bool :=
  bool_decide (text = v).

(** [catch (Xml_node::Nonexistent_attribute) { }] *)
Definition ignore_nonexistent_attribute {A} (fallback : A) (e : Exception)
  : M Resources A :=
  match e with
  | Nonexistent_attribute => ret fallback
  | _ => throw e
  end.

(** Runs a member function of an object under construction. *)
Definition on_object {St A} (m : M St A) (obj : St) : M Resources (A * St) :=
  fun r => match m obj with
           | Done a obj' => Done (a, obj') r
           | Throw e _ => Throw e r
           | Spin _ => Spin r
           end.

(** The constructor of [Session_component], member by member: the
    [IO_BUFFER_SIZE] bytes of the RAM dataspace, the default-constructed
    callback, the driver from the factory, and [_size]. [members] is the
    object at the time the initialiser of [_size] runs; [_size] is not read
    before it is set. What a fresh dataspace holds is not in these sources;
    it is taken as zeroes, and nothing below depends on it. *)
Definition members (index baudrate : Z) : Session_component D :=
  mkSession (replicate (N.to_nat IO_BUFFER_SIZE) x00) Invalid_cap
    (Driver_factory.create index baudrate) (mkSize 0 0) [].

Definition take_session_object (r : Resources) : Resources :=
  mkResources (dataspaces r) (drivers r) (S (session_objects r)).
Definition take_dataspace (size : N) (r : Resources) : Resources :=
  mkResources (dataspaces r ++ [size]) (drivers r) (session_objects r).
Definition take_driver (index baudrate : Z) (r : Resources) : Resources :=
  mkResources (dataspaces r) (drivers r ++ [(index, baudrate)]) (session_objects r).

Definition new_Session_component (fuel : nat) (index baudrate : Z)
    (detect_size : bool) : M Resources (Session_component D) :=
  modify take_session_object ;;;
  modify (take_dataspace IO_BUFFER_SIZE) ;;;
  modify (take_driver index baudrate) ;;;
  if detect_size then
    r <- on_object (_detect_size fuel) (members index baudrate) ;;
    ret (set_size (r.1) (r.2))
  else ret (members index baudrate).

Definition _create_session (fuel : nat) (args : string)
  : M Resources (Session_component D) :=
  try_catch
    (let label := Session_label args in
     policy <- policy_for label ;;
     uart <- attribute policy "uart" ;;
     let index := value uart 0 in
     baudrate <- try_catch
                   (text <- attribute policy "baudrate" ;; ret (value text 0))
                   (ignore_nonexistent_attribute 0) ;;
     detect_size <- try_catch
                      (text <- attribute policy "detect_size" ;;
                       ret (has_value text "yes"))
                      (ignore_nonexistent_attribute false) ;;
     new_Session_component fuel index baudrate detect_size)
    (fun e =>
       match e with
       | Nonexistent_attribute => throw Unavailable
       | No_policy_defined => throw Unavailable
       | _ => throw e
       end).

End Root.

(** ** Two drivers *)

(** A driver that records the calls made through the interface, around any
    other driver. *)
Module Logged.

Inductive Call : Type :=
| Char_avail (b : bool)     (* char_avail() returned b *)
| Get_char (c : byte)       (* get_char() returned c *)
| Put_char (c : byte)       (* put_char(c) *)
| Baud_rate (bits : N).     (* baud_rate(bits) *)

Record Logged (D : Type) : Type := mk {
  inner : D;
  calls : list Call         (* oldest first *)
}.
Arguments mk {D}.
Arguments inner {D}.
Arguments calls {D}.

#[global] Instance driver {D : Type} {Drv : Driver.Driver D} : Driver.Driver (Logged D) := {
  char_avail l :=
    let '(b, d) := Driver.char_avail (inner l) in (b, mk d (calls l ++ [Char_avail b]));
  get_char l :=
    let '(c, d) := Driver.get_char (inner l) in (c, mk d (calls l ++ [Get_char c]));
  put_char c l := mk (Driver.put_char c (inner l)) (calls l ++ [Put_char c]);
  baud_rate bits l := mk (Driver.baud_rate bits (inner l)) (calls l ++ [Baud_rate bits])
}.

(** [guarded_from armed t]: every [get_char] of [t] comes directly after a
    [char_avail] that returned true; [armed] tells whether the call
    before [t] was one. *)
Fixpoint guarded_from (armed : bool) (t : list Call) : bool :=
  match t with
  | [] => true
  | Char_avail b :: t' => guarded_from b t'
  | Get_char _ :: t' => armed && guarded_from false t'
  | _ :: t' => guarded_from false t'
  end.

Fixpoint armed_after (armed : bool) (t : list Call) : bool :=
  match t with
  | [] => armed
  | Char_avail b :: t' => armed_after b t'
  | _ :: t' => armed_after false t'
  end.

Definition guarded (t : list Call) : bool := guarded_from false t.

End Logged.

(** A line that follows a script. [rx] is what the receiver presents to the
    successive calls of [char_avail]: [Some c], the character [c] is
    waiting (until [get_char] takes it); [None], nothing has arrived by
    this call; at the end of the script the line stays silent. [tx] is what
    was written to the line. *)
Module Scripted.

Record Line : Type := mk {
  rx : list (option byte);
  tx : list byte;          (* oldest first *)
  baud : N
}.

(** [get_char] with no character waiting: the driver leaves it undefined,
    this one answers NUL. *)
#[global] Instance driver : Driver.Driver Line := {
  char_avail l :=
    match rx l with
    | Some _ :: _ => (true, l)
    | None :: rx' => (false, mk rx' (tx l) (baud l))
    | [] => (false, l)
    end;
  get_char l :=
    match rx l with
    | Some c :: rx' => (c, mk rx' (tx l) (baud l))
    | _ => (x00, l)
    end;
  put_char c l := mk (rx l) (tx l ++ [c]) (baud l);
  baud_rate bits l := mk (rx l) (tx l) bits
}.

(** The factory that hands out lines with the script [rx]. *)
Definition factory (rx : list (option byte)) : Driver_factory.Driver_factory Line :=
  {| Driver_factory.create index baudrate := mk rx [] (Z.to_N baudrate) |}.

(** The characters of a script. *)
Definition chars (rx : list (option byte)) : list byte := omap id rx.

(** What is left of a script once the flush loop of [_detect_size] is
    through: the loop takes the characters that are waiting and stops at
    the first call that finds none. *)
Fixpoint flushed (rx : list (option byte)) : list (option byte) :=
  match rx with
  | Some _ :: rx' => flushed rx'
  | None :: rx' => rx'
  | [] => []
  end.

(** A session on a scripted line. *)
Definition session (rx : list (option byte)) (buf : list byte) : Session_component Line :=
  mkSession buf Invalid_cap (mk rx [] 0%N) (mkSize 0 0) [].

End Scripted.

(** ** The cursor report, as a grammar on character streams *)

Module Report.

(** The value [_read_number] accumulates over a run of digits. *)
Definition number_from (result : Z) (ds : list byte) : Z :=
  foldl (fun r c => to_unsigned (r * 10 + digit c)) result ds.
Definition number (ds : list byte) : Z := number_from 0 ds.

(** The decimal value of a run of digits. *)
Definition decimal_from (v : Z) (ds : list byte) : Z :=
  foldl (fun r c => r * 10 + digit c) v ds.
Definition decimal (ds : list byte) : Z := decimal_from 0 ds.

Definition digits (ds : list byte) : Prop := Forall (fun c => is_digit c = true) ds.

(** ESC '[' height ';' width 'R', and whatever follows. *)
Definition report (hs ws rest : list byte) : list byte :=
  x1b :: "["%byte :: hs ++ ";"%byte :: ws ++ "R"%byte :: rest.

(** A stream that leaves the grammar at a character it supplies. *)
Inductive mismatch : list byte -> Prop :=
| bad_escape c rest :
    c <> x1b -> mismatch (c :: rest)
| bad_bracket c rest :
    c <> "["%byte -> mismatch (x1b :: c :: rest)
| bad_separator hs c rest :
    digits hs -> is_digit c = false -> c <> ";"%byte ->
    mismatch (x1b :: "["%byte :: hs ++ c :: rest)
| bad_terminator hs ws c rest :
    digits hs -> digits ws -> is_digit c = false -> c <> "R"%byte ->
    mismatch (x1b :: "["%byte :: hs ++ ";"%byte :: ws ++ c :: rest).

(** The reading of a number from a character stream: the terminating
    character, the value and the rest of the stream; [None] when the
    stream ends inside the digits. *)
Fixpoint read_number (cs : list byte) (result : Z) : option (byte * Z * list byte) :=
  match cs with
  | [] => None
  | c :: cs' =>
      if negb (is_digit c) then Some (c, result, cs')
      else read_number cs' (to_unsigned (result * 10 + digit c))
  end.

(** The size a character stream stands for, and the rest of the stream;
    [None] when the stream ends before the grammar is matched or left. *)
Definition cursor_report (cs : list byte) : option (Size * list byte) :=
  match cs with
  | [] => None
  | c1 :: cs1 =>
      if Byte.eqb c1 x1b then
        match cs1 with
        | [] => None
        | c2 :: cs2 =>
            if Byte.eqb c2 "["%byte then
              match read_number cs2 0 with
              | None => None
              | Some (c3, h, cs3) =>
                  if Byte.eqb c3 ";"%byte then
                    match read_number cs3 0 with
                    | None => None
                    | Some (c4, w, cs4) =>
                        if Byte.eqb c4 "R"%byte then Some (mkSize w h, cs4)
                        else Some (mkSize 0 0, cs4)
                    end
                  else Some (mkSize 0 0, cs3)
              end
            else Some (mkSize 0 0, cs2)
        end
      else Some (mkSize 0 0, cs1)
  end.

End Report.

(** ** Definitions for the statements and the proofs *)

(** [post Q R o]: the outcome [o] is a return satisfying [Q] or a loop
    caught in a state satisfying [R]; it is not an exception. *)
Definition post {St A} (Q : A -> St -> Prop) (R : St -> Prop) (o : outcome St A) : Prop :=
  match o with
  | Done a s => Q a s
  | Throw _ _ => False
  | Spin s => R s
  end.

(** [preserves I allow_spin m]: [m] does not throw, keeps the relation [I]
    between the state before and the state after, and is caught in a loop
    only where [allow_spin] holds. *)
Definition preserves {St A} (I : St -> St -> Prop) (allow_spin : Prop) (m : M St A) : Prop :=
  forall s, post (fun _ s' => I s s') (fun s' => allow_spin /\ I s s') (m s).

(** More fuel does not change what a run returns. *)
Definition fuel_monotone {St A} (f : nat -> M St A) : Prop :=
  forall n m s a s', (n <= m)%nat -> f n s = Done a s' -> f m s = Done a s'.

(** A driver that answers no to every [char_avail] from now on. *)
Definition silent {D} {Drv : Driver.Driver D} (d : D) : Prop :=
  forall n, (Driver.char_avail (Nat.iter n (fun d' => (Driver.char_avail d').2) d)).1 = false.

(** What no session operation changes: [_size], and the size of the I/O
    buffer. *)
Definition same_size {D} (s s' : Session_component D) : Prop :=
  _size s' = _size s /\ io_buffer_size s' = io_buffer_size s.

(** *** Sessions on a logged driver *)

Definition log {D} (s : Session_component (Logged.Logged D)) : list Logged.Call :=
  Logged.calls (_driver s).

(** The calls of a run of [_read] that took the characters [cs]. *)
Fixpoint taken (cs : list byte) : list Logged.Call :=
  match cs with
  | [] => []
  | c :: cs' => Logged.Char_avail true :: Logged.Get_char c :: taken cs'
  end.

(** [guards armed m P]: run after a call history that ends armed or not,
    [m] adds calls in which every [get_char] is guarded, whether it
    returns or is caught in a loop; on return, [P] holds of the result
    and of whether the history now ends armed. *)
Definition guards {D A} (armed : bool) (m : M (Session_component (Logged.Logged D)) A)
    (P : A -> bool -> Prop) : Prop :=
  forall s,
    post (fun a s' => exists new, log s' = log s ++ new
                        /\ Logged.guarded_from armed new = true
                        /\ P a (Logged.armed_after armed new))
         (fun s' => exists new, log s' = log s ++ new
                        /\ Logged.guarded_from armed new = true)
         (m s).

(** [safe m]: [m] guards its [get_char] calls whatever came before. *)
Definition safe {D A} (m : M (Session_component (Logged.Logged D)) A) : Prop :=
  forall armed, guards armed m (fun _ _ => True).

(** The outcome [o] of a run from [s] has added, to the calls logged in
    [s], calls in which every [get_char] is guarded. *)
Definition guarded_run {D A} (s : Session_component (Logged.Logged D))
    (o : outcome (Session_component (Logged.Logged D)) A) : Prop :=
  exists new, Logged.calls (_driver (final o)) = Logged.calls (_driver s) ++ new
              /\ Logged.guarded new = true.

(** The session behind the log. *)
Definition erase {D} (s : Session_component (Logged.Logged D)) : Session_component D :=
  mkSession (_io_buffer s) (_char_avail_callback s) (Logged.inner (_driver s))
    (_size s) (signals s).

Definition erase_outcome {D A} (o : outcome (Session_component (Logged.Logged D)) A)
  : outcome (Session_component D) A :=
  match o with
  | Done a s => Done a (erase s)
  | Throw e s => Throw e (erase s)
  | Spin s => Spin (erase s)
  end.

(** [mirrors m1 m2]: [m1], on the logged driver, does what [m2] does on the
    driver behind the log. *)
Definition mirrors {D A} (m1 : M (Session_component (Logged.Logged D)) A)
    (m2 : M (Session_component D) A) : Prop :=
  forall s, erase_outcome (m1 s) = m2 (erase s).

(** A session on a scripted line behind the call log. *)
Definition logged_session (rx : list (option byte)) (buf : list byte)
  : Session_component (Logged.Logged Scripted.Line) :=
  mkSession buf Invalid_cap (Logged.mk (Scripted.mk rx [] 0%N) []) (mkSize 0 0) [].

(** *** Sessions on a scripted line *)

(** The session with the script of its line, or what was written to it,
    replaced. *)
Definition with_rx (r : list (option byte)) (s : Session_component Scripted.Line)
  : Session_component Scripted.Line :=
  set_driver (Scripted.mk r (Scripted.tx (_driver s)) (Scripted.baud (_driver s))) s.
Definition with_tx (t : list byte) (s : Session_component Scripted.Line)
  : Session_component Scripted.Line :=
  set_driver (Scripted.mk (Scripted.rx (_driver s)) t (Scripted.baud (_driver s))) s.

(** The session once [_detect_size] has written its two sequences. *)
Definition probed (s : Session_component Scripted.Line) : Session_component Scripted.Line :=
  with_tx (Scripted.tx (_driver s) ++ set_cursor_sequence ++ request_cursor_sequence) s.

(** [_detect_size] from the reading of the reply on. *)
Definition read_reply {D} {Drv : Driver.Driver D} (fuel : nat) : M (Session_component D) Size :=
  c1 <- _poll_char fuel ;;
  if Byte.eqb c1 x1b then
    c2 <- _poll_char fuel ;;
    if Byte.eqb c2 "["%byte then
      r1 <- _read_number fuel ;;
      if Byte.eqb (r1.1) ";"%byte then
        r2 <- _read_number fuel ;;
        if Byte.eqb (r2.1) "R"%byte then ret (mkSize (r2.2) (r1.2))
        else ret (mkSize 0 0)
      else ret (mkSize 0 0)
    else ret (mkSize 0 0)
  else ret (mkSize 0 0).

(** *** A configuration *)

(** One policy, for the label "terminal". *)
Definition example_policy (label : string) : option Xml_node :=
  if bool_decide (label = "terminal") then Some {[ "uart" := "1" ]} else None.
Definition example_value (text : string) (out : Z) : Z :=
  if bool_decide (text = "1") then 1 else out.
Definition no_resources : Resources := mkResources [] [] 0.

Create HintDb safe.
Create HintDb preserves.
Create HintDb mirrors.

(** ** Definitions for the further properties *)

(** The characters of a C string: those before the first NUL. *)
Fixpoint c_string (s : list byte) : list byte :=
  match s with
  | [] => []
  | c :: s' => if Byte.eqb c x00 then [] else c :: c_string s'
  end.

(** The baud rates a list of requests asks for, and those a list of driver
    calls sets. *)
Definition baud_requests (rs : list Request) : list N :=
  omap (fun r => match r with Call_baud_rate bits => Some bits | _ => None end) rs.
Definition baud_calls (t : list Logged.Call) : list N :=
  omap (fun c => match c with Logged.Baud_rate bits => Some bits | _ => None end) t.

(** The requests that only ask: [size], [_dataspace] and the two unused
    entry points [read] and [write]. *)
Definition passive (r : Request) : bool :=
  match r with
  | Call_size | Call__dataspace | Call_read _ | Call_write _ => true
  | _ => false
  end.

(** The baud rate [_create_session] hands to the constructor. *)
Definition configured_baudrate (value : string -> Z -> Z) (node : Xml_node) : Z :=
  match node !! "baudrate" with
  | Some text => value text 0
  | None => 0
  end.

(** Whether [_create_session] asks the constructor to detect the size. *)
Definition configured_detect_size (node : Xml_node) : bool :=
  match node !! "detect_size" with
  | Some text => has_value text "yes"
  | None => false
  end.

(** The resources after a session for UART [index] has been set up. *)
Definition session_taken (index baudrate : Z) (r : Resources) : Resources :=
  take_driver index baudrate (take_dataspace IO_BUFFER_SIZE (take_session_object r)).

(** The characters that are waiting at the head of a script. *)
Fixpoint waiting (rx : list (option byte)) : list byte :=
  match rx with
  | Some c :: rx' => c :: waiting rx'
  | _ => []
  end.

(** What is left of a script after a run of [_read] for at most [k]
    characters. *)
Fixpoint after_read (k : nat) (rx : list (option byte)) : list (option byte) :=
  match k with
  | O => rx
  | S k' =>
      match rx with
      | Some _ :: rx' => after_read k' rx'
      | None :: rx' => rx'
      | [] => []
      end
  end.

(** Two more configurations: one that asks for size detection, one that
    spells it differently and sets a baud rate. *)
Definition detecting_policy (label : string) : option Xml_node :=
  Some {[ "uart" := "1"; "detect_size" := "yes" ]}.
Definition quiet_policy (label : string) : option Xml_node :=
  Some {[ "uart" := "1"; "baudrate" := "1"; "detect_size" := "Yes" ]}.

(** * Properties *)

(** ** Reasoning about outcomes *)

Section Outcomes.

Context {St A B : Type}.

Lemma bind_done (m : M St A) (k : A -> M St B) s a s' :
  m s = Done a s' -> bind m k s = k a s'.
Proof. unfold bind. by intros ->. Qed.

Lemma post_bind (Q1 : A -> St -> Prop) (Q : B -> St -> Prop) (R : St -> Prop)
    (m : M St A) (k : A -> M St B) s :
  post Q1 R (m s) ->
  (forall a s', Q1 a s' -> post Q R (k a s')) ->
  post Q R (bind m k s).
Proof.
  intros Hm Hk. unfold bind.
  destruct (m s) as [a s'|e s'|s']; simpl in *; [by apply Hk|done|done].
Qed.

Lemma post_mono (Q Q' : A -> St -> Prop) (R R' : St -> Prop) o :
  post Q R o ->
  (forall a s, Q a s -> Q' a s) -> (forall s, R s -> R' s) ->
  post Q' R' o.
Proof. unfold post. destruct o; auto. Qed.

Lemma post_never_done (Q : A -> St -> Prop) (R : St -> Prop) o :
  post Q R o -> (forall a s, ~ Q a s) -> exists s, o = Spin s.
Proof. destruct o as [a s|e s|s]; simpl; intros Hp Hn; [by destruct (Hn a s)|done|eauto]. Qed.

End Outcomes.

Section Numbers.
Import Report.

Lemma to_unsigned_step v d :
  to_unsigned (to_unsigned v * 10 + d) = to_unsigned (v * 10 + d).
Proof.
  unfold to_unsigned.
  rewrite Z.add_mod, Z.mul_mod_idemp_l, <- Z.add_mod by done. done.
Qed.

Lemma number_from_decimal ds : forall v,
  number_from (to_unsigned v) ds = to_unsigned (decimal_from v ds).
Proof.
  induction ds as [|d ds IH]; intros v; simpl; [done|].
  by rewrite to_unsigned_step, IH.
Qed.

(** The number read is the decimal value of the digits, modulo 2^32. *)
Lemma number_decimal ds : number ds = to_unsigned (decimal ds).
Proof. apply (number_from_decimal ds 0). Qed.

End Numbers.

Section Silent.
Context {D : Type} {Drv : Driver.Driver D}.

Lemma silent_next (d : D) : silent d -> silent (Driver.char_avail d).2.
Proof. intros Hs n. specialize (Hs (S n)). by rewrite Nat.iter_succ_r in Hs. Qed.

(** The busy wait of [_poll_char] does not end on a silent driver. *)
Lemma poll_char_never_returns fuel : forall s : Session_component D,
  silent (_driver s) -> exists s', _poll_char fuel s = Spin s'.
Proof.
  unfold _poll_char, bind.
  induction fuel as [|fuel IH]; intros s Hs; simpl; [by exists s|].
  unfold bind, driver_char_avail.
  pose proof (Hs 0%nat) as H0. pose proof (silent_next _ Hs) as Hn. simpl in H0.
  destruct (Driver.char_avail (_driver s)) as [b d]. simpl in *. subst b. simpl.
  apply (IH (set_driver d s)). done.
Qed.

End Silent.

Section Fuel.
Context {D : Type} {Drv : Driver.Driver D}.
Local Abbreviation Session := (Session_component D).

Lemma fuel_monotone_const {A} (m : M Session A) : fuel_monotone (fun _ => m).
Proof. by intros n m' s a s' _. Qed.

Lemma fuel_monotone_bind {A B} (f : nat -> M Session A) (g : nat -> A -> M Session B) :
  fuel_monotone f -> (forall a, fuel_monotone (fun n => g n a)) ->
  fuel_monotone (fun n => bind (f n) (g n)).
Proof.
  intros Hf Hg n m s b s' Hnm. unfold bind.
  destruct (f n s) as [a s1|e s1|s1] eqn:Hfn; [|done|done].
  rewrite (Hf n m s a s1 Hnm Hfn). by apply Hg.
Qed.

Lemma fuel_monotone_poll_char_wait : fuel_monotone (_poll_char_wait (D:=D)).
Proof.
  intros n. induction n as [|n IH]; intros [|m] s a s' Hnm; simpl; try done; [lia|].
  unfold bind. destruct (driver_char_avail s) as [[] s1|e s1|s1]; simpl; try done.
  apply IH. lia.
Qed.

Lemma fuel_monotone_poll_char : fuel_monotone (_poll_char (D:=D)).
Proof.
  apply (fuel_monotone_bind _ (fun _ _ => driver_get_char));
    [apply fuel_monotone_poll_char_wait|]. intros _. apply fuel_monotone_const.
Qed.

Lemma fuel_monotone_flush_incoming : fuel_monotone (flush_incoming (D:=D)).
Proof.
  intros n. induction n as [|n IH]; intros [|m] s a s' Hnm; simpl; try done; [lia|].
  unfold bind. destruct (driver_char_avail s) as [[] s1|e s1|s1]; simpl; try done.
  destruct (driver_get_char s1) as [c s2|e s2|s2]; try done.
  apply IH. lia.
Qed.

Lemma fuel_monotone_read_number_loop n : forall pf pf' m result s a s',
  (pf <= pf')%nat -> (n <= m)%nat ->
  _read_number_loop (D:=D) pf n result s = Done a s' ->
  _read_number_loop pf' m result s = Done a s'.
Proof.
  induction n as [|n IH]; intros pf pf' [|m] result s a s' Hpf Hnm; simpl; try done; [lia|].
  unfold bind. destruct (_poll_char pf s) as [c s1|e s1|s1] eqn:Hp; [|done|done].
  rewrite (fuel_monotone_poll_char pf pf' s c s1 Hpf Hp).
  destruct (negb (is_digit c)); [done|]. apply IH; lia.
Qed.

Lemma fuel_monotone_read_number : fuel_monotone (_read_number (D:=D)).
Proof. intros n m s a s' Hnm. by apply fuel_monotone_read_number_loop. Qed.

(** Once [_detect_size] returns, it returns the same with more fuel. *)
Lemma fuel_monotone_detect_size : fuel_monotone (_detect_size (D:=D)).
Proof.
  unfold _detect_size.
  repeat first
    [ apply fuel_monotone_const
    | apply fuel_monotone_poll_char
    | apply fuel_monotone_flush_incoming
    | apply fuel_monotone_read_number
    | apply (fuel_monotone_bind (fun n => _put_string _) (fun n _ => _))
    | apply (fuel_monotone_bind (fun n => flush_incoming n) (fun n _ => _))
    | apply (fuel_monotone_bind (fun n => _poll_char n) (fun n c => _))
    | apply (fuel_monotone_bind (fun n => _read_number n) (fun n c => _))
    | match goal with |- forall _, fuel_monotone _ => intro end
    | match goal with |- fuel_monotone (fun n => if ?b then _ else _) => destruct b end ].
Qed.

End Fuel.

Section Scripted_runs.

Import Scripted Report.

Local Abbreviation Session := (Session_component Line).

Lemma with_rx_id s : with_rx (rx (_driver s)) s = s.
Proof. by destruct s as [? ? [? ? ?] ? ?]. Qed.

Lemma poll_char_idle fuel r s :
  _poll_char (S fuel) (with_rx (None :: r) s) = _poll_char fuel (with_rx r s).
Proof. done. Qed.

Lemma poll_char_waiting fuel c r s :
  _poll_char (S fuel) (with_rx (Some c :: r) s) = Done c (with_rx r s).
Proof. done. Qed.

Lemma poll_char_silent fuel s :
  _poll_char (S fuel) (with_rx [] s) = _poll_char fuel (with_rx [] s).
Proof. done. Qed.

(** With fuel for every entry of the script, [_poll_char] returns the
    first character of the script. *)
Lemma poll_char_complete r : forall fuel s c cs,
  chars r = c :: cs -> (length r <= fuel)%nat ->
  exists r', _poll_char fuel (with_rx r s) = Done c (with_rx r' s)
             /\ chars r' = cs /\ (length r' < length r)%nat.
Proof.
  induction r as [|[c'|] r IH]; intros fuel s c cs Hc Hf; simpl in *.
  - discriminate.
  - destruct fuel as [|fuel]; [lia|]. injection Hc as -> <-.
    exists r. rewrite poll_char_waiting. auto with lia.
  - destruct fuel as [|fuel]; [lia|]. rewrite poll_char_idle.
    destruct (IH fuel s c cs Hc) as (r' & -> & ? & ?); [lia|].
    exists r'. auto with lia.
Qed.

(** Whatever the fuel, [_poll_char] returns nothing but the first
    character of the script. *)
Lemma poll_char_sound fuel : forall r s,
  post (fun c s' => exists r', s' = with_rx r' s /\ chars r = c :: chars r')
       (fun s' => exists r', s' = with_rx r' s)
       (_poll_char fuel (with_rx r s)).
Proof.
  induction fuel as [|fuel IH]; intros r s.
  - by exists r.
  - destruct r as [|[c|] r].
    + rewrite poll_char_silent. apply IH.
    + rewrite poll_char_waiting. by exists r.
    + rewrite poll_char_idle. exact (IH r s).
Qed.

Lemma read_number_loop_S pf fuel result :
  _read_number_loop pf (S fuel) result =
  (c <- _poll_char pf ;;
   if negb (is_digit c) then ret (c, result)
   else _read_number_loop pf fuel (to_unsigned (result * 10 + digit c))).
Proof. done. Qed.

Lemma read_number_complete fuel : forall pf r result s c v rest,
  read_number (chars r) result = Some (c, v, rest) ->
  (length r <= pf)%nat -> (length r <= fuel)%nat ->
  exists r', _read_number_loop pf fuel result (with_rx r s) = Done (c, v) (with_rx r' s)
             /\ chars r' = rest /\ (length r' < length r)%nat.
Proof.
  induction fuel as [|fuel IH]; intros pf r result s c v rest Hn Hpf Hf.
  - destruct r; [done|simpl in Hf; lia].
  - destruct (chars r) as [|c1 cs] eqn:Hcs; [done|].
    destruct (poll_char_complete r pf s c1 cs Hcs Hpf) as (r1 & Hp & <- & Hlen).
    rewrite read_number_loop_S, (bind_done _ _ _ _ _ Hp).
    simpl in Hn. destruct (negb (is_digit c1)).
    + injection Hn as <- <- <-. exists r1. auto.
    + destruct (IH pf r1 _ s c v rest Hn) as (r' & Hr & ? & ?); [lia..|].
      exists r'. rewrite <- Hr. auto with lia.
Qed.

Lemma read_number_sound fuel : forall pf r result s,
  post (fun cv s' => exists r', s' = with_rx r' s
                      /\ read_number (chars r) result = Some (cv.1, cv.2, chars r'))
       (fun s' => exists r', s' = with_rx r' s)
       (_read_number_loop pf fuel result (with_rx r s)).
Proof.
  induction fuel as [|fuel IH]; intros pf r result s.
  - by exists r.
  - rewrite read_number_loop_S.
    eapply post_bind; [apply poll_char_sound|].
    intros c s' (r1 & -> & Hc). simpl. rewrite Hc. simpl.
    destruct (negb (is_digit c)).
    + by exists r1.
    + apply IH.
Qed.

Lemma flush_incoming_complete r : forall fuel s,
  (length r < fuel)%nat ->
  flush_incoming fuel (with_rx r s) = Done tt (with_rx (flushed r) s).
Proof.
  induction r as [|[c|] r IH]; intros [|fuel] s Hf; simpl in Hf; try lia; try done.
  change (flush_incoming (S fuel) (with_rx (Some c :: r) s))
    with (flush_incoming fuel (with_rx r s)).
  apply IH. lia.
Qed.

Lemma flush_incoming_sound fuel : forall r s,
  post (fun _ s' => s' = with_rx (flushed r) s)
       (fun s' => exists r', s' = with_rx r' s)
       (flush_incoming fuel (with_rx r s)).
Proof.
  induction fuel as [|fuel IH]; intros r s.
  - by exists r.
  - destruct r as [|[c|] r]; [done| |done]. exact (IH r s).
Qed.

(** A string without NUL goes to the line as it is. *)
Lemma put_string_scripted cs : forall s,
  Forall (fun c => Byte.eqb c x00 = false) cs ->
  _put_string cs s = Done tt (with_tx (tx (_driver s) ++ cs) s).
Proof.
  induction cs as [|c cs IH]; intros s Hcs.
  - rewrite app_nil_r. by destruct s as [? ? [? ? ?] ? ?].
  - inversion_clear Hcs as [|? ? Hc Hcs']. simpl. rewrite Hc.
    unfold bind. simpl. rewrite IH by done. simpl.
    by rewrite <- app_assoc.
Qed.

Lemma detect_size_unfold fuel :
  _detect_size fuel =
  (_put_string set_cursor_sequence ;;;
   flush_incoming fuel ;;;
   _put_string request_cursor_sequence ;;;
   read_reply fuel).
Proof. done. Qed.

Lemma read_reply_complete fuel r s sz rest :
  cursor_report (chars r) = Some (sz, rest) -> (length r <= fuel)%nat ->
  exists r', read_reply fuel (with_rx r s) = Done sz (with_rx r' s) /\ chars r' = rest.
Proof.
  intros Hrep Hf. unfold read_reply, cursor_report in *.
  destruct (chars r) as [|c1 cs1] eqn:H1; [done|].
  destruct (poll_char_complete r fuel s c1 cs1 H1 Hf) as (r1 & Hp1 & <- & Hl1).
  rewrite (bind_done _ _ _ _ _ Hp1).
  destruct (Byte.eqb c1 x1b); [|injection Hrep as <- <-; by exists r1].
  destruct (chars r1) as [|c2 cs2] eqn:H2; [done|].
  destruct (poll_char_complete r1 fuel s c2 cs2 H2) as (r2 & Hp2 & <- & Hl2); [lia|].
  rewrite (bind_done _ _ _ _ _ Hp2).
  destruct (Byte.eqb c2 "["); [|injection Hrep as <- <-; by exists r2].
  destruct (read_number (chars r2) 0) as [[[c3 h] cs3]|] eqn:H3; [|done].
  destruct (read_number_complete fuel fuel r2 0 s c3 h cs3 H3) as (r3 & Hp3 & <- & Hl3); [lia..|].
  unfold _read_number at 1. rewrite (bind_done _ _ _ _ _ Hp3). simpl.
  destruct (Byte.eqb c3 ";"); [|injection Hrep as <- <-; by exists r3].
  destruct (read_number (chars r3) 0) as [[[c4 w] cs4]|] eqn:H4; [|done].
  destruct (read_number_complete fuel fuel r3 0 s c4 w cs4 H4) as (r4 & Hp4 & <- & Hl4); [lia..|].
  unfold _read_number. rewrite (bind_done _ _ _ _ _ Hp4). simpl.
  destruct (Byte.eqb c4 "R"); injection Hrep as <- <-; by exists r4.
Qed.

Lemma read_reply_sound fuel r s :
  post (fun sz s' => exists r', s' = with_rx r' s
                      /\ cursor_report (chars r) = Some (sz, chars r'))
       (fun s' => exists r', s' = with_rx r' s)
       (read_reply fuel (with_rx r s)).
Proof.
  unfold read_reply, cursor_report.
  eapply post_bind; [apply poll_char_sound|].
  intros c1 s' (r1 & -> & ->). simpl.
  destruct (Byte.eqb c1 x1b); [|by exists r1].
  eapply post_bind; [apply poll_char_sound|].
  intros c2 s' (r2 & -> & ->). simpl.
  destruct (Byte.eqb c2 "["); [|by exists r2].
  eapply post_bind; [apply read_number_sound|].
  intros [c3 h] s' (r3 & -> & ->). simpl.
  destruct (Byte.eqb c3 ";"); [|by exists r3].
  eapply post_bind; [apply read_number_sound|].
  intros [c4 w] s' (r4 & -> & ->). simpl.
  destruct (Byte.eqb c4 "R"); by exists r4.
Qed.

Lemma detect_size_to_read_reply fuel s :
  (length (rx (_driver s)) < fuel)%nat ->
  _detect_size fuel s = read_reply fuel (with_rx (flushed (rx (_driver s))) (probed s)).
Proof.
  intros Hf. rewrite detect_size_unfold.
  erewrite bind_done; [|by apply put_string_scripted; repeat constructor].
  erewrite bind_done;
    [|rewrite <- (with_rx_id (with_tx _ s)); by apply flush_incoming_complete].
  erewrite bind_done; [|by apply put_string_scripted; repeat constructor].
  unfold probed. simpl. by rewrite <- app_assoc.
Qed.

Lemma flushed_length r : (length (flushed r) <= length r)%nat.
Proof. induction r as [|[c|] r IH]; simpl; lia. Qed.

(** [_detect_size] returns what the grammar makes of the characters that
    arrive after the flush, if the fuel covers the script. *)
Lemma detect_size_complete fuel s sz rest :
  cursor_report (chars (flushed (rx (_driver s)))) = Some (sz, rest) ->
  (length (rx (_driver s)) < fuel)%nat ->
  exists r', _detect_size fuel s = Done sz (with_rx r' (probed s)) /\ chars r' = rest.
Proof.
  intros Hrep Hf. rewrite detect_size_to_read_reply by done.
  apply read_reply_complete; [done|].
  pose proof (flushed_length (rx (_driver s))). lia.
Qed.

(** Whatever the fuel, [_detect_size] returns nothing else, and it sends
    each of its two sequences once. *)
Lemma detect_size_sound fuel s :
  post (fun sz s' => exists r', s' = with_rx r' (probed s)
          /\ cursor_report (chars (flushed (rx (_driver s)))) = Some (sz, chars r'))
       (fun s' => exists r', s' = with_rx r' (with_tx (tx (_driver s) ++ set_cursor_sequence) s)
                             \/ s' = with_rx r' (probed s))
       (_detect_size fuel s).
Proof.
  rewrite detect_size_unfold.
  erewrite bind_done; [|by apply put_string_scripted; repeat constructor].
  set (s1 := with_tx (tx (_driver s) ++ set_cursor_sequence) s).
  apply post_bind with
    (Q1 := fun _ s' => s' = with_rx (flushed (rx (_driver s))) s1).
  { eapply post_mono; [exact (flush_incoming_sound fuel (rx (_driver s)) s1)|done|].
    intros s' (r' & ->). exists r'. by left. }
  intros _ s' ->.
  erewrite bind_done; [|by apply put_string_scripted; repeat constructor].
  replace (with_tx _ _) with (with_rx (flushed (rx (_driver s))) (probed s))
    by (unfold probed, s1; simpl; by rewrite <- app_assoc).
  eapply post_mono.
  - apply read_reply_sound.
  - intros sz s' (r' & -> & Hrep). by exists r'.
  - intros s' (r' & ->). exists r'. by right.
Qed.

(** *** The grammar, in terms of the shape of the stream *)

Lemma eqb_neq c c' : c <> c' -> Byte.eqb c c' = false.
Proof.
  intros Hne. destruct (Byte.eqb c c') eqn:E; [|done].
  by apply Byte.byte_dec_bl in E.
Qed.

Lemma eqb_refl c : Byte.eqb c c = true.
Proof. by apply Byte.byte_dec_lb. Qed.

Lemma read_number_digits ds : forall result c rest,
  digits ds -> is_digit c = false ->
  read_number (ds ++ c :: rest) result = Some (c, number_from result ds, rest).
Proof.
  induction ds as [|d ds IH]; intros result c rest Hds Hc; simpl.
  - by rewrite Hc.
  - inversion_clear Hds as [|? ? Hd Hds']. rewrite Hd. simpl. by apply IH.
Qed.

Lemma read_number_inv cs : forall result c v rest,
  read_number cs result = Some (c, v, rest) ->
  exists ds, digits ds /\ is_digit c = false
             /\ cs = ds ++ c :: rest /\ v = number_from result ds.
Proof.
  induction cs as [|d cs IH]; intros result c v rest Hn; simpl in Hn; [done|].
  destruct (is_digit d) eqn:Hd; simpl in Hn.
  - destruct (IH _ _ _ _ Hn) as (ds & Hds & Hc & -> & ->).
    exists (d :: ds). repeat split; [by constructor|done].
  - injection Hn as <- <- <-. exists []. repeat split; [constructor|done].
Qed.

Lemma cursor_report_of_report hs ws rest :
  digits hs -> digits ws ->
  cursor_report (report hs ws rest) = Some (mkSize (number ws) (number hs), rest).
Proof.
  intros Hhs Hws. unfold cursor_report, report. simpl.
  rewrite (read_number_digits hs) by done. simpl.
  by rewrite (read_number_digits ws).
Qed.

Lemma cursor_report_of_mismatch cs :
  mismatch cs -> exists rest, cursor_report cs = Some (mkSize 0 0, rest).
Proof.
  intros [c rest Hc|c rest Hc|hs c rest Hhs Hd Hc|hs ws c rest Hhs Hws Hd Hc];
    unfold cursor_report.
  - rewrite (eqb_neq _ _ Hc). eauto.
  - simpl. rewrite (eqb_neq _ _ Hc). eauto.
  - simpl. rewrite (read_number_digits hs) by done.
    rewrite (eqb_neq _ _ Hc). eauto.
  - simpl. rewrite (read_number_digits hs) by done. simpl.
    rewrite (read_number_digits ws) by done.
    rewrite (eqb_neq _ _ Hc). eauto.
Qed.

Lemma cursor_report_inv cs sz rest :
  cursor_report cs = Some (sz, rest) ->
  (exists hs ws, digits hs /\ digits ws /\ cs = report hs ws rest
                 /\ sz = mkSize (number ws) (number hs))
  \/ (mismatch cs /\ sz = mkSize 0 0).
Proof.
  unfold cursor_report. intros Hrep.
  destruct cs as [|c1 cs1]; [done|].
  destruct (Byte.eqb c1 x1b) eqn:E1;
    [apply Byte.byte_dec_bl in E1 as ->
    |apply Byte.eqb_false in E1; injection Hrep as <- <-; right; split; [by constructor|done]].
  destruct cs1 as [|c2 cs2]; [done|].
  destruct (Byte.eqb c2 "[") eqn:E2;
    [apply Byte.byte_dec_bl in E2 as ->
    |apply Byte.eqb_false in E2; injection Hrep as <- <-; right; split; [by constructor|done]].
  destruct (read_number cs2 0) as [[[c3 h] cs3]|] eqn:H3; [|done].
  apply read_number_inv in H3 as (hs & Hhs & Hd3 & -> & ->).
  destruct (Byte.eqb c3 ";") eqn:E3;
    [apply Byte.byte_dec_bl in E3 as ->
    |apply Byte.eqb_false in E3; injection Hrep as <- <-; right; split; [by constructor|done]].
  destruct (read_number cs3 0) as [[[c4 w] cs4]|] eqn:H4; [|done].
  apply read_number_inv in H4 as (ws & Hws & Hd4 & -> & ->).
  destruct (Byte.eqb c4 "R") eqn:E4;
    [apply Byte.byte_dec_bl in E4 as ->
    |apply Byte.eqb_false in E4; injection Hrep as <- <-; right; split; [by constructor|done]].
  injection Hrep as <- <-. left. by exists hs, ws.
Qed.

End Scripted_runs.

Section Logged_runs.

Import Logged.
Context {D : Type} {Drv : Driver.Driver D}.

Local Abbreviation Session := (Session_component (Logged D)).

Lemma logged_char_avail (s : Session) b d :
  Driver.char_avail (inner (_driver s)) = (b, d) ->
  driver_char_avail s = Done b (set_driver (mk d (log s ++ [Char_avail b])) s).
Proof. unfold driver_char_avail. simpl. by intros ->. Qed.

Lemma logged_get_char (s : Session) c d :
  Driver.get_char (inner (_driver s)) = (c, d) ->
  driver_get_char s = Done c (set_driver (mk d (log s ++ [Get_char c])) s).
Proof. unfold driver_get_char. simpl. by intros ->. Qed.

Lemma read_loop_S k n :
  _read_loop (D:=Logged D) (S k) n =
  (b <- driver_char_avail ;;
   if b then
     c <- driver_get_char ;;
     modify (io_buf_store n c) ;;;
     _read_loop k (n + 1)%N
   else ret n).
Proof. done. Qed.

Lemma read_loop_logged k : forall (n : N) (s : Session),
  (N.to_nat n + k <= length (_io_buffer s))%nat ->
  exists cs d,
    _read_loop k n s =
      Done (n + N.of_nat (length cs))%N
        (set_io_buffer
           (take (N.to_nat n) (_io_buffer s) ++ cs
              ++ drop (N.to_nat n + length cs) (_io_buffer s))
           (set_driver
              (mk d (log s ++ taken cs
                       ++ if (length cs <? k)%nat then [Char_avail false] else []))
              s))
    /\ (length cs <= k)%nat.
Proof.
  induction k as [|k IH]; intros n s Hlen.
  - exists [], (inner (_driver s)). split; [|done]. simpl.
    rewrite N.add_0_r, Nat.add_0_r, take_drop, !app_nil_r.
    by destruct s as [? ? [? ?] ? ?].
  - rewrite read_loop_S.
    destruct (Driver.char_avail (inner (_driver s))) as [b d1] eqn:Ea.
    rewrite (bind_done _ _ _ _ _ (logged_char_avail s b d1 Ea)).
    destruct b.
    + set (s1 := set_driver _ s).
      destruct (Driver.get_char d1) as [c d2] eqn:Eg.
      rewrite (bind_done _ _ _ _ _ (logged_get_char s1 c d2 Eg)).
      set (s2 := set_driver _ s1).
      unfold modify at 1. unfold bind at 1.
      destruct (IH (n + 1)%N (io_buf_store n c s2)) as (cs & d & -> & Hcs).
      { simpl. rewrite length_insert. lia. }
      exists (c :: cs), d. split; [|simpl; lia].
      f_equal; [simpl; lia|].
      unfold io_buf_store, set_io_buffer, set_driver, log. simpl. f_equal.
      * replace (N.to_nat (n + 1)) with (S (N.to_nat n)) by lia.
        rewrite (take_S_r _ _ c) by (apply list_lookup_insert_eq; lia).
        rewrite take_insert_ge by lia.
        rewrite drop_insert_lt by lia.
        rewrite <- !app_assoc. simpl. do 4 f_equal. lia.
      * f_equal. change (S (length cs) <? S k)%nat with (length cs <? k)%nat.
        subst s1. unfold log. simpl. by rewrite <- !app_assoc.
    + exists [], d1. split; [|simpl; lia]. simpl.
      rewrite N.add_0_r, Nat.add_0_r, take_drop.
      by destruct s as [? ? [? ?] ? ?].
Qed.

Lemma ltb_nat_N (a : nat) (b : N) : (a <? N.to_nat b)%nat = (N.of_nat a <? b)%N.
Proof. destruct (Nat.ltb_spec a (N.to_nat b)), (N.ltb_spec (N.of_nat a) b); lia. Qed.

Lemma read_logged (s : Session) (dst_len : N) :
  exists cs d,
    let n := N.of_nat (length cs) in
    let sz := N.min dst_len (io_buffer_size s) in
    _read dst_len s =
      Done n
        (set_io_buffer (cs ++ drop (length cs) (_io_buffer s))
           (set_driver
              (mk d (log s ++ taken cs
                       ++ if (n <? sz)%N then [Char_avail false] else []))
              s))
    /\ (n <= sz)%N.
Proof.
  destruct (read_loop_logged (N.to_nat (N.min dst_len (io_buffer_size s))) 0 s)
    as (cs & d & Hrun & Hcs); [unfold io_buffer_size; lia|].
  exists cs, d. simpl. split; [|lia].
  unfold _read, bind, get. rewrite Hrun, ltb_nat_N. done.
Qed.

Lemma write_loop_S k i :
  _write_loop (D:=Logged D) (S k) i =
  (s <- get ;; driver_put_char (io_buf_load s i) ;;; _write_loop k (i + 1)%N).
Proof. done. Qed.

Lemma write_loop_logged k : forall (i : N) (s : Session),
  (N.to_nat i + k <= length (_io_buffer s))%nat ->
  let cs := take k (drop (N.to_nat i) (_io_buffer s)) in
  _write_loop k i s =
    Done tt
      (set_driver
         (mk (foldl (fun d c => Driver.put_char c d) (inner (_driver s)) cs)
             (log s ++ (Put_char <$> cs)))
         s).
Proof.
  induction k as [|k IH]; intros i s Hlen; simpl.
  - rewrite app_nil_r. by destruct s as [? ? [? ?] ? ?].
  - destruct (lookup_lt_is_Some_2 (_io_buffer s) (N.to_nat i)) as [c Hc]; [lia|].
    rewrite (drop_S _ c) by done. simpl.
    unfold bind at 1, get. unfold bind at 1, driver_put_char, modify.
    rewrite IH by (simpl; lia).
    unfold io_buf_load. rewrite Hc. simpl.
    replace (N.to_nat (i + 1)) with (S (N.to_nat i)) by lia.
    unfold log. simpl. by rewrite <- app_assoc.
Qed.

Lemma write_logged (s : Session) (num_bytes : N) :
  let cs := take (N.to_nat (N.min num_bytes (io_buffer_size s))) (_io_buffer s) in
  _write num_bytes s =
    Done tt
      (set_driver
         (mk (foldl (fun d c => Driver.put_char c d) (inner (_driver s)) cs)
             (log s ++ (Put_char <$> cs)))
         s)
  /\ N.of_nat (length cs) = N.min num_bytes (io_buffer_size s).
Proof.
  split.
  - unfold _write, bind, get.
    rewrite write_loop_logged by (unfold io_buffer_size; lia). done.
  - rewrite length_take. unfold io_buffer_size. lia.
Qed.

End Logged_runs.

Section Guards.

Import Logged.
Context {D : Type} {Drv : Driver.Driver D}.
Local Abbreviation Session := (Session_component (Logged D)).

Lemma guarded_from_app t1 : forall armed t2,
  guarded_from armed (t1 ++ t2)
  = guarded_from armed t1 && guarded_from (armed_after armed t1) t2.
Proof.
  induction t1 as [|[b|c|c|n] t1 IH]; intros armed t2; simpl; try done.
  rewrite IH. by destruct armed.
Qed.

Lemma armed_after_app t1 : forall armed t2,
  armed_after armed (t1 ++ t2) = armed_after (armed_after armed t1) t2.
Proof. induction t1 as [|[b|c|c|n] t1 IH]; intros armed t2; simpl; done. Qed.

Lemma guards_ret {A} armed (a : A) (P : A -> bool -> Prop) :
  P a armed -> guards (D:=D) armed (ret a) P.
Proof. intros HP s. exists []. by rewrite app_nil_r. Qed.

Lemma guards_spin {A} armed (P : A -> bool -> Prop) : guards (D:=D) armed spin P.
Proof. intros s. exists []. by rewrite app_nil_r. Qed.

Lemma guards_bind {A B} armed (m : M Session A) (k : A -> M Session B) P1 P :
  guards armed m P1 ->
  (forall a armed', P1 a armed' -> guards armed' (k a) P) ->
  guards armed (bind m k) P.
Proof.
  intros Hm Hk s. eapply post_bind; [apply Hm|]. simpl.
  intros a s1 (new1 & Hl1 & Hg1 & HP1).
  eapply post_mono; [apply (Hk a _ HP1 s1)|..]; simpl.
  - intros b s2 (new2 & Hl2 & Hg2 & HP2). exists (new1 ++ new2).
    rewrite Hl2, Hl1, app_assoc, guarded_from_app, armed_after_app, Hg1. done.
  - intros s2 (new2 & Hl2 & Hg2). exists (new1 ++ new2).
    rewrite Hl2, Hl1, app_assoc, guarded_from_app, Hg1. done.
Qed.

Lemma guards_weaken {A} armed (m : M Session A) (P P' : A -> bool -> Prop) :
  guards armed m P -> (forall a armed', P a armed' -> P' a armed') ->
  guards armed m P'.
Proof.
  intros Hm HP s. eapply post_mono; [apply Hm|..]; simpl; [|done].
  intros a s' (new & ? & ? & ?). exists new. auto.
Qed.

Lemma guards_char_avail armed :
  guards (D:=D) armed driver_char_avail (fun b armed' => armed' = b).
Proof.
  intros s. destruct (Driver.char_avail (inner (_driver s))) as [b d] eqn:E.
  rewrite (logged_char_avail s b d E). by exists [Char_avail b].
Qed.

Lemma guards_get_char :
  guards (D:=D) true driver_get_char (fun _ armed' => armed' = false).
Proof.
  intros s. destruct (Driver.get_char (inner (_driver s))) as [c d] eqn:E.
  rewrite (logged_get_char s c d E). by exists [Get_char c].
Qed.

Lemma safe_put_char c : safe (D:=D) (driver_put_char c).
Proof. intros armed s. by exists [Put_char c]. Qed.

Lemma safe_baud_rate bits : safe (D:=D) (driver_baud_rate bits).
Proof. intros armed s. by exists [Baud_rate bits]. Qed.

Lemma guards_modify armed (f : Session -> Session) :
  (forall s, _driver (f s) = _driver s) ->
  guards armed (modify f) (fun _ armed' => armed' = armed).
Proof. intros Hf s. exists []. unfold log. simpl. by rewrite Hf, app_nil_r. Qed.

Lemma guards_get armed : guards (D:=D) armed get (fun _ armed' => armed' = armed).
Proof. intros s. exists []. by rewrite app_nil_r. Qed.

Lemma safe_of_guards {A} (m : M Session A) P :
  (forall armed, guards armed m (P armed)) -> safe m.
Proof. intros Hm armed. by eapply guards_weaken. Qed.

Lemma safe_ret {A} (a : A) : safe (D:=D) (ret a).
Proof. intros armed. by apply guards_ret. Qed.

Lemma safe_spin {A} : safe (D:=D) (A:=A) spin.
Proof. intros armed. apply guards_spin. Qed.

Lemma safe_bind {A B} (m : M Session A) (k : A -> M Session B) :
  safe m -> (forall a, safe (k a)) -> safe (bind m k).
Proof. intros Hm Hk armed. eapply guards_bind; [apply Hm|]. intros a armed' _. apply Hk. Qed.

Lemma safe_modify (f : Session -> Session) :
  (forall s, _driver (f s) = _driver s) -> safe (modify f).
Proof. intros Hf. eapply safe_of_guards. intros armed. by apply guards_modify. Qed.

Lemma safe_get : safe (D:=D) get.
Proof. eapply safe_of_guards. apply guards_get. Qed.

Lemma safe_char_avail : safe (D:=D) driver_char_avail.
Proof. eapply safe_of_guards. apply guards_char_avail. Qed.

Lemma safe_if {A} (b : bool) (m1 m2 : M Session A) :
  safe m1 -> safe m2 -> safe (if b then m1 else m2).
Proof. by destruct b. Qed.

#[local] Hint Resolve safe_ret safe_spin safe_put_char safe_baud_rate safe_get
  safe_char_avail safe_if : safe.
#[local] Hint Extern 2 (safe (bind _ _)) => apply safe_bind; [|intros] : safe.
#[local] Hint Extern 2 (safe (modify _)) => apply safe_modify; intros; reflexivity : safe.

Lemma guards_poll_char_wait fuel : forall armed,
  guards (D:=D) armed (_poll_char_wait fuel) (fun _ armed' => armed' = true).
Proof.
  induction fuel as [|fuel IH]; intros armed; simpl.
  - apply guards_spin.
  - eapply guards_bind; [apply guards_char_avail|].
    intros [] armed' ->; simpl; [by apply guards_ret|apply IH].
Qed.

Lemma safe_poll_char fuel : safe (D:=D) (_poll_char fuel).
Proof.
  intros armed. eapply guards_bind; [apply guards_poll_char_wait|].
  intros _ armed' ->. eapply guards_weaken; [apply guards_get_char|done].
Qed.
#[local] Hint Resolve safe_poll_char : safe.

Lemma safe_put_string cs : safe (D:=D) (_put_string cs).
Proof. induction cs as [|c cs IH]; simpl; auto with safe. Qed.
#[local] Hint Resolve safe_put_string : safe.

Lemma safe_read_number_loop pf fuel : forall result,
  safe (D:=D) (_read_number_loop pf fuel result).
Proof. induction fuel as [|fuel IH]; intros result; simpl; auto with safe. Qed.

Lemma safe_read_number fuel : safe (D:=D) (_read_number fuel).
Proof. apply safe_read_number_loop. Qed.
#[local] Hint Resolve safe_read_number : safe.

Lemma safe_flush_incoming fuel : safe (D:=D) (flush_incoming fuel).
Proof.
  induction fuel as [|fuel IH]; intros armed; simpl.
  - apply guards_spin.
  - eapply guards_bind; [apply guards_char_avail|].
    intros [] armed' ->; [|by apply guards_ret].
    eapply guards_bind; [apply guards_get_char|].
    intros _ armed' _. apply IH.
Qed.
#[local] Hint Resolve safe_flush_incoming : safe.

Lemma safe_detect_size fuel : safe (D:=D) (_detect_size fuel).
Proof. unfold _detect_size. auto 20 with safe. Qed.

Lemma safe_read_loop k : forall n, safe (D:=D) (_read_loop k n).
Proof.
  induction k as [|k IH]; intros n armed; simpl.
  - by apply guards_ret.
  - eapply guards_bind; [apply guards_char_avail|].
    intros [] armed' ->; [|by apply guards_ret].
    eapply guards_bind; [apply guards_get_char|].
    intros c armed' _. revert armed'. change (safe (D:=D) (modify (io_buf_store n c) ;;; _read_loop k (n + 1)%N)).
    auto with safe.
Qed.

Lemma safe_read dst_len : safe (D:=D) (_read dst_len).
Proof. unfold _read. auto using safe_read_loop with safe. Qed.

Lemma safe_write_loop k : forall i, safe (D:=D) (_write_loop k i).
Proof. induction k as [|k IH]; intros i; simpl; auto with safe. Qed.

Lemma safe_write num_bytes : safe (D:=D) (_write num_bytes).
Proof. unfold _write. auto using safe_write_loop with safe. Qed.

Lemma safe_char_avail_callback : safe (D:=D) char_avail_callback.
Proof. unfold char_avail_callback, submit. auto with safe. Qed.

Lemma safe_dispatch r : safe (D:=D) (dispatch r).
Proof.
  destruct r; simpl;
    unfold baud_rate, size, avail, _dataspace, connected_sigh, read_avail_sigh,
      read, write, submit;
    auto 10 using safe_read, safe_write, safe_char_avail_callback with safe.
Qed.

Lemma safe_serve rs : safe (D:=D) (serve rs).
Proof. induction rs as [|r rs IH]; simpl; auto using safe_dispatch with safe. Qed.

End Guards.

Section Preserves.

Context {St : Type} (I : St -> St -> Prop) (allow_spin : Prop).
Hypothesis I_refl : forall s, I s s.
Hypothesis I_trans : forall s1 s2 s3, I s1 s2 -> I s2 s3 -> I s1 s3.

Lemma preserves_ret {A} (a : A) : preserves I allow_spin (ret a).
Proof. intros s. apply I_refl. Qed.

Lemma preserves_get : preserves I allow_spin get.
Proof. intros s. apply I_refl. Qed.

Lemma preserves_spin {A} : allow_spin -> preserves I allow_spin (A:=A) spin.
Proof. intros Hs s. split; [done|apply I_refl]. Qed.

Lemma preserves_modify (f : St -> St) :
  (forall s, I s (f s)) -> preserves I allow_spin (modify f).
Proof. intros Hf s. apply Hf. Qed.

Lemma preserves_bind {A B} (m : M St A) (k : A -> M St B) :
  preserves I allow_spin m -> (forall a, preserves I allow_spin (k a)) ->
  preserves I allow_spin (bind m k).
Proof.
  intros Hm Hk s. eapply post_bind; [apply Hm|]. simpl. intros a s1 H1.
  eapply post_mono; [apply Hk|..]; simpl.
  - intros _ s2 H2. by eapply I_trans.
  - intros s2 [? H2]. split; [done|by eapply I_trans].
Qed.

Lemma preserves_if {A} (b : bool) (m1 m2 : M St A) :
  preserves I allow_spin m1 -> preserves I allow_spin m2 ->
  preserves I allow_spin (if b then m1 else m2).
Proof. by destruct b. Qed.

End Preserves.

Section Session_preserves.

Context {D : Type} {Drv : Driver.Driver D}.
Local Abbreviation Session := (Session_component D).

(** A relation that the updates of the session code keep. *)
Variable I : Session -> Session -> Prop.
Variable allow_spin : Prop.
Hypothesis I_refl : forall s, I s s.
Hypothesis I_trans : forall s1 s2 s3, I s1 s2 -> I s2 s3 -> I s1 s3.
Hypothesis I_driver : forall s d, I s (set_driver d s).
Hypothesis I_store : forall s n c, I s (io_buf_store n c s).
Hypothesis I_sigh : forall s c, I s (set_sigh c s).
Hypothesis I_signals : forall s l, I s (set_signals l s).

Local Abbreviation keeps := (preserves I allow_spin).

Lemma keeps_char_avail : keeps driver_char_avail.
Proof. intros s. unfold driver_char_avail. destruct (Driver.char_avail _). apply I_driver. Qed.

Lemma keeps_get_char : keeps driver_get_char.
Proof. intros s. unfold driver_get_char. destruct (Driver.get_char _). apply I_driver. Qed.

Lemma keeps_put_char c : keeps (driver_put_char c).
Proof. intros s. apply I_driver. Qed.

Lemma keeps_baud_rate bits : keeps (driver_baud_rate bits).
Proof. intros s. apply I_driver. Qed.

Lemma keeps_submit sigh : keeps (submit sigh).
Proof. intros s. apply I_signals. Qed.

#[local] Hint Resolve preserves_ret preserves_get preserves_spin preserves_if
  keeps_char_avail keeps_get_char keeps_put_char keeps_baud_rate keeps_submit
  : preserves.
#[local] Hint Extern 2 (preserves _ _ (bind _ _)) => apply preserves_bind; [assumption| |intros] : preserves.
#[local] Hint Extern 2 (preserves _ _ (modify _)) => apply preserves_modify; intros : preserves.

Lemma keeps_poll_char_wait fuel : allow_spin -> keeps (_poll_char_wait fuel).
Proof. intros Hs. induction fuel as [|fuel IH]; simpl; auto with preserves. Qed.

Lemma keeps_poll_char fuel : allow_spin -> keeps (_poll_char fuel).
Proof. intros Hs. unfold _poll_char. auto using keeps_poll_char_wait with preserves. Qed.

Lemma keeps_put_string cs : keeps (_put_string cs).
Proof. induction cs as [|c cs IH]; simpl; auto with preserves. Qed.

Lemma keeps_read_number_loop pf fuel : allow_spin ->
  forall result, keeps (_read_number_loop pf fuel result).
Proof.
  intros Hs. induction fuel as [|fuel IH]; intros result; simpl;
    auto using keeps_poll_char with preserves.
Qed.

Lemma keeps_flush_incoming fuel : allow_spin -> keeps (flush_incoming fuel).
Proof. intros Hs. induction fuel as [|fuel IH]; simpl; auto 6 with preserves. Qed.

Lemma keeps_detect_size fuel : allow_spin -> keeps (_detect_size fuel).
Proof.
  intros Hs. unfold _detect_size, _read_number.
  auto 20 using keeps_poll_char, keeps_put_string, keeps_read_number_loop,
    keeps_flush_incoming with preserves.
Qed.

Lemma keeps_read_loop k : forall n, keeps (_read_loop k n).
Proof. induction k as [|k IH]; intros n; simpl; auto 8 with preserves. Qed.

Lemma keeps_write_loop k : forall i, keeps (_write_loop k i).
Proof. induction k as [|k IH]; intros i; simpl; auto 8 with preserves. Qed.

Lemma keeps_dispatch r : keeps (dispatch r).
Proof.
  destruct r; simpl;
    unfold baud_rate, size, avail, _read, _write, _dataspace, connected_sigh,
      read_avail_sigh, read, write, char_avail_callback;
    auto 10 using keeps_read_loop, keeps_write_loop with preserves.
Qed.

Lemma keeps_serve rs : keeps (serve rs).
Proof. induction rs as [|r rs IH]; simpl; auto using keeps_dispatch with preserves. Qed.

End Session_preserves.

Section Size_detection.

Import Scripted Report.
Local Abbreviation Session := (Session_component Line).

Lemma detect_size_result fuel (s : Session) sz rest :
  (length (rx (_driver s)) < fuel)%nat ->
  cursor_report (chars (flushed (rx (_driver s)))) = Some (sz, rest) ->
  result (_detect_size fuel s) = Some sz.
Proof.
  intros Hf Hrep.
  destruct (detect_size_complete fuel s sz rest Hrep Hf) as (r' & -> & _). done.
Qed.

(** C1, corrected. After the probe, the reply ESC [ 2 4 ; 8 0 R makes
    [_detect_size] return Size(80, 24); any reply ESC [ height ; width R,
    the two numbers being runs of digits, returns Size(width, height) with
    the numbers read as [unsigned]; a reply that leaves this grammar at one
    of its characters returns Size(0, 0); and a reply that does neither
    returns nothing. *)
Theorem detect_size_report (s : Session) (fuel : nat) :
  (length (rx (_driver s)) < fuel)%nat ->
  let reply := chars (flushed (rx (_driver s))) in
  (reply = x1b :: String.list_byte_of_string "[24;80R" ->
   result (_detect_size fuel s) = Some (mkSize 80 24))
  /\ (forall hs ws rest, digits hs -> digits ws -> reply = report hs ws rest ->
      result (_detect_size fuel s) = Some (mkSize (number ws) (number hs)))
  /\ (mismatch reply -> result (_detect_size fuel s) = Some (mkSize 0 0))
  /\ ((forall hs ws rest, digits hs -> digits ws -> reply <> report hs ws rest) ->
      ~ mismatch reply ->
      result (_detect_size fuel s) = None).
Proof.
  intros Hf reply. repeat split.
  - intros Hr. by apply (detect_size_result fuel s _ []); [|fold reply; rewrite Hr].
  - intros hs ws rest Hhs Hws Hr. apply (detect_size_result fuel s _ rest); [done|].
    fold reply. rewrite Hr. by apply cursor_report_of_report.
  - intros Hm. destruct (cursor_report_of_mismatch _ Hm) as [rest Hrep].
    by apply (detect_size_result fuel s _ rest).
  - intros Hnr Hnm. pose proof (detect_size_sound fuel s) as Hs.
    destruct (_detect_size fuel s) as [sz s'|e s'|s']; [|done|done].
    destruct Hs as (r' & _ & Hrep).
    apply cursor_report_inv in Hrep as [(hs & ws & Hhs & Hws & Hr & _)|[Hm _]].
    + by destruct (Hnr hs ws (chars r') Hhs Hws).
    + by destruct Hnm.
Qed.

Lemma detect_size_report_witness :
  let s := session (Some "x"%byte :: None :: (Some <$> x1b :: String.list_byte_of_string "[24;80R")) [] in
  (length (rx (_driver s)) < 16)%nat
  /\ result (_detect_size 16 s) = Some (mkSize 80 24).
Proof.
  intros s. split; [simpl; lia|].
  apply (proj1 (detect_size_report s 16 ltac:(simpl; lia))). reflexivity.
Defined.

(** C1 as stated fails: the reply ESC [ 2 5 ; 8 0 R is another byte
    sequence than ESC [ 2 4 ; 8 0 R, and [_detect_size] returns
    Size(80, 25) for it, not Size(0, 0). *)
Lemma detect_size_other_reply :
  let reply := x1b :: String.list_byte_of_string "[25;80R" in
  reply <> x1b :: String.list_byte_of_string "[24;80R"
  /\ result (_detect_size 16 (session (None :: (Some <$> reply)) [])) = Some (mkSize 80 25)
  /\ mkSize 80 25 <> mkSize 0 0.
Proof. repeat split; [discriminate|discriminate]. Qed.

(** C10. [_read_number] accepts an empty run of digits: when the first
    character it polls is not a digit, it returns that character with the
    result 0. So a report with an empty height or an empty width matches
    the grammar, the empty field counting as 0; the reply ESC [ ; 8 0 R
    makes [_detect_size] return Size(80, 0), which is not the Size(0, 0) of
    a failure. *)
Theorem read_number_empty_run (s : Session) (fuel : nat) :
  (length (rx (_driver s)) < fuel)%nat ->
  let reply := chars (flushed (rx (_driver s))) in
  (forall c cs, chars (rx (_driver s)) = c :: cs -> is_digit c = false ->
     result (_read_number fuel s) = Some (c, 0))
  /\ (reply = x1b :: String.list_byte_of_string "[;80R" ->
      result (_detect_size fuel s) = Some (mkSize 80 0)
      /\ mkSize 80 0 <> mkSize 0 0)
  /\ (forall ws rest, digits ws -> reply = report [] ws rest ->
      result (_detect_size fuel s) = Some (mkSize (number ws) 0))
  /\ (forall hs rest, digits hs -> reply = report hs [] rest ->
      result (_detect_size fuel s) = Some (mkSize 0 (number hs))).
Proof.
  intros Hf reply. split; [|split; [|split]].
  - intros c cs Hc Hd.
    destruct (read_number_complete fuel fuel (rx (_driver s)) 0 s c 0 cs)
      as (r' & Hrun & _); [by rewrite Hc; simpl; rewrite Hd|lia..|].
    unfold _read_number. rewrite <- (with_rx_id s) at 1. by rewrite Hrun.
  - intros Hr. split; [|discriminate].
    apply (detect_size_result fuel s _ []); [done|]. fold reply. by rewrite Hr.
  - intros ws rest Hws Hr. apply (detect_size_result fuel s _ rest); [done|].
    fold reply. rewrite Hr. by apply (cursor_report_of_report [] ws); [constructor|].
  - intros hs rest Hhs Hr. apply (detect_size_result fuel s _ rest); [done|].
    fold reply. rewrite Hr. by apply (cursor_report_of_report hs []); [|constructor].
Qed.

Lemma read_number_empty_run_witness :
  let s := session (None :: (Some <$> x1b :: String.list_byte_of_string "[;80R")) [] in
  (length (rx (_driver s)) < 8)%nat
  /\ result (_detect_size 8 s) = Some (mkSize 80 0).
Proof.
  intros s. split; [simpl; lia|].
  apply (proj2 (read_number_empty_run s 8 ltac:(simpl; lia))). reflexivity.
Defined.

(** C8. Size detection has no timeout and no retry. On a driver that never
    reports a character, [_poll_char] is still in its loop whatever the
    fuel; when no character arrives after the flush, so is [_detect_size],
    having sent its request at most once; and [_detect_size] returns only
    when the characters that arrived after the flush match the grammar of
    the report or leave it. *)
Theorem detect_size_blocks (s : Session) :
  (forall D (Drv : Driver.Driver D) (s0 : Session_component D) fuel,
     silent (_driver s0) -> exists s', _poll_char fuel s0 = Spin s')
  /\ (chars (rx (_driver s)) = [] ->
      forall fuel, exists s', _poll_char fuel s = Spin s')
  /\ (chars (flushed (rx (_driver s))) = [] ->
      forall fuel, exists s',
        _detect_size fuel s = Spin s'
        /\ (tx (_driver s') = tx (_driver s) ++ set_cursor_sequence
            \/ tx (_driver s') = tx (_driver s) ++ set_cursor_sequence
                                   ++ request_cursor_sequence))
  /\ (forall fuel sz s', _detect_size fuel s = Done sz s' ->
      let reply := chars (flushed (rx (_driver s))) in
      (exists hs ws rest, digits hs /\ digits ws /\ reply = report hs ws rest)
      \/ mismatch reply).
Proof.
  split; [|split; [|split]].
  - intros D Drv s0 fuel. apply poll_char_never_returns.
  - intros Hsilent fuel.
    pose proof (poll_char_sound fuel (rx (_driver s)) s) as Hs.
    rewrite with_rx_id in Hs. apply (post_never_done _ _ _ Hs).
    intros c s' (r' & _ & Hc). by rewrite Hsilent in Hc.
  - intros Hsilent fuel. pose proof (detect_size_sound fuel s) as Hs.
    destruct (_detect_size fuel s) as [sz s'|e s'|s']; simpl in Hs.
    + destruct Hs as (r' & _ & Hrep). by rewrite Hsilent in Hrep.
    + done.
    + exists s'. split; [done|]. destruct Hs as (r' & [-> | ->]); [by left|by right].
  - intros fuel sz s' Hrun reply. pose proof (detect_size_sound fuel s) as Hs.
    rewrite Hrun in Hs. destruct Hs as (r' & _ & Hrep).
    apply cursor_report_inv in Hrep as [(hs & ws & ? & ? & ? & _)|[? _]]; [left|by right].
    by exists hs, ws, (chars r').
Qed.

Lemma detect_size_blocks_witness :
  let s := session [Some "x"%byte; None; None] [] in
  chars (flushed (rx (_driver s))) = []
  /\ exists s', _detect_size 100 s = Spin s'.
Proof.
  intros s. split; [reflexivity|].
  destruct (proj1 (proj2 (proj2 (detect_size_blocks s))) eq_refl 100%nat) as (s' & Hs' & _).
  by exists s'.
Defined.

End Size_detection.

Section Transfer.

Import Logged.
Context {D : Type} {Drv : Driver.Driver D}.
Local Abbreviation Session := (Session_component (Logged D)).

(** C2. [_read] returns a count [n] of at most min(dst_len, 4096). It gets
    there by [n] rounds of [char_avail] answering true and [get_char], whose
    characters are the first [n] bytes of the I/O buffer afterwards, in the
    order they were taken; the rest of the buffer and of the session is as
    before. When [n] is below the clamp, a last [char_avail] answered
    false; at the clamp the driver is not asked again. *)
Theorem read_bounded_copy (s : Session) (dst_len : N) :
  io_buffer_size s = IO_BUFFER_SIZE ->
  exists cs d,
    let n := N.of_nat (length cs) in
    let sz := N.min dst_len 4096 in
    _read dst_len s =
      Done n
        (set_io_buffer (cs ++ drop (length cs) (_io_buffer s))
           (set_driver
              (mk d (calls (_driver s) ++ taken cs
                       ++ if (n <? sz)%N then [Char_avail false] else []))
              s))
    /\ (n <= sz)%N.
Proof.
  intros Hsize. destruct (read_logged s dst_len) as (cs & d & Hrun).
  rewrite Hsize in Hrun. by exists cs, d.
Qed.

(** C3. [_write] hands the first min(num_bytes, 4096) bytes of the I/O
    buffer to [put_char], one call each, in buffer order, and nothing else
    happens: it returns, without a value, in the session it started in but
    for the driver. *)
Theorem write_truncates (s : Session) (num_bytes : N) :
  io_buffer_size s = IO_BUFFER_SIZE ->
  let cs := take (N.to_nat (N.min num_bytes 4096)) (_io_buffer s) in
  _write num_bytes s =
    Done tt
      (set_driver
         (mk (foldl (fun d c => Driver.put_char c d) (inner (_driver s)) cs)
             (calls (_driver s) ++ (Put_char <$> cs)))
         s)
  /\ N.of_nat (length cs) = N.min num_bytes 4096.
Proof.
  intros Hsize. pose proof (write_logged s num_bytes) as Hrun.
  by rewrite Hsize in Hrun.
Qed.

Lemma safe_guarded_run {A} (m : M Session A) s : safe m -> guarded_run s (m s).
Proof.
  intros Hm. specialize (Hm false s). unfold guarded_run, guarded.
  destruct (m s) as [a s'|e s'|s']; simpl in *; [|done|done].
  destruct Hm as (new & ? & ? & _). by exists new.
Qed.

(** C9. In the calls that reach the driver, every [get_char] comes directly
    after a [char_avail] that returned true: in [_poll_char], in
    [_detect_size], in [_read] and in any sequence of session operations,
    whether they return or are still in a loop. *)
Theorem get_char_guarded (s : Session) (fuel : nat) :
  guarded_run s (_poll_char fuel s)
  /\ guarded_run s (_detect_size fuel s)
  /\ (forall dst_len, guarded_run s (_read dst_len s))
  /\ (forall rs, guarded_run s (serve rs s)).
Proof.
  repeat split; intros; apply safe_guarded_run;
    auto using safe_poll_char, safe_detect_size, safe_read, safe_serve.
Qed.

End Transfer.

Lemma read_bounded_copy_witness :
  let s := logged_session [Some "a"; Some "b"; None; Some "c"]%byte
             (replicate 4096 x00) in
  io_buffer_size s = IO_BUFFER_SIZE
  /\ exists cs d,
       _read 10 s =
         Done (N.of_nat (length cs))
           (set_io_buffer (cs ++ drop (length cs) (_io_buffer s))
              (set_driver
                 (Logged.mk d
                    (Logged.calls (_driver s) ++ taken cs
                       ++ if (N.of_nat (length cs) <? N.min 10 4096)%N
                          then [Logged.Char_avail false] else []))
                 s))
       /\ (N.of_nat (length cs) <= N.min 10 4096)%N.
Proof.
  intros s. split; [reflexivity|].
  apply (read_bounded_copy s 10). reflexivity.
Defined.

(** With nothing waiting, [_read] returns 0. *)
Example read_nothing_waiting :
  result (_read 10 (logged_session [None; Some "a"%byte] (replicate 4096 x00))) = Some 0%N.
Proof. vm_compute. reflexivity. Qed.

Lemma write_truncates_witness :
  let s := logged_session [] (replicate 4096 "x"%byte) in
  io_buffer_size s = IO_BUFFER_SIZE
  /\ N.of_nat (length (take (N.to_nat (N.min 5000 4096)) (_io_buffer s))) = 4096%N.
Proof.
  intros s. split; [reflexivity|].
  apply (proj2 (write_truncates s 5000 eq_refl)).
Defined.

Section Signals.

Context {D : Type} {Drv : Driver.Driver D}.
Local Abbreviation Session := (Session_component D).

(** C5. [read_avail_sigh(target)] stores the target and asks the driver
    once; if a character is available, the signal goes to the target within
    the call, and if none is, nothing is submitted. *)
Theorem read_avail_sigh_catch_up (s : Session) (id : nat) :
  let target := Cap id in
  let answer := Driver.char_avail (_driver s) in
  read_avail_sigh target s =
    Done tt
      (mkSession (_io_buffer s) target (answer.2) (_size s)
         (signals s ++ if answer.1 then [target] else [])).
Proof.
  unfold read_avail_sigh, bind, modify, driver_char_avail. simpl.
  destruct (Driver.char_avail (_driver s)) as [[] d]; simpl; [done|].
  by rewrite app_nil_r.
Qed.

(** The callback does not signal an invalid capability. *)
Lemma read_avail_sigh_invalid (s : Session) :
  read_avail_sigh Invalid_cap s =
    Done tt (mkSession (_io_buffer s) Invalid_cap ((Driver.char_avail (_driver s)).2)
               (_size s) (signals s)).
Proof.
  unfold read_avail_sigh, bind, modify, driver_char_avail. simpl.
  by destruct (Driver.char_avail (_driver s)) as [[] d].
Qed.

Lemma serve_app rs1 : forall rs2 (s s1 : Session),
  serve rs1 s = Done tt s1 -> serve (rs1 ++ rs2) s = serve rs2 s1.
Proof.
  induction rs1 as [|r rs1 IH]; intros rs2 s s1 Hrun; simpl in *.
  - by injection Hrun as ->.
  - unfold bind in *. destruct (dispatch r s) as [a s'|e s'|s']; [|done|done].
    by apply IH.
Qed.

(** C7. Every call of [connected_sigh(target)] submits one signal to the
    target and changes nothing else in the session, whatever the session's
    state and whatever the calls before: a sequence of such calls submits
    its targets one by one. *)
Theorem connected_sigh_always_fires (s : Session) :
  (forall sigh,
     connected_sigh sigh s = Done tt (set_signals (signals s ++ [sigh]) s))
  /\ (forall sighs,
        serve (Call_connected_sigh <$> sighs) s
        = Done tt (set_signals (signals s ++ sighs) s)).
Proof.
  split; [done|]. intros sighs. revert s.
  induction sighs as [|sigh sighs IH]; intros s; simpl.
  - rewrite app_nil_r. by destruct s.
  - unfold bind. simpl. rewrite IH. simpl. by rewrite <- app_assoc.
Qed.

Lemma serve_same_size rs (s : Session) :
  exists s', serve rs s = Done tt s' /\ same_size s s'.
Proof.
  assert (Hk : preserves same_size False (serve rs)).
  { apply keeps_serve;
      first [done
            |intros ? ? ? [? ?] [? ?]; split; congruence
            |intros; split; [done|unfold io_buffer_size; simpl; by rewrite length_insert]]. }
  specialize (Hk s).
  destruct (serve rs s) as [[] s'|e s'|s']; simpl in Hk; [by exists s'|done|by destruct Hk].
Qed.

End Signals.

Section Root_facts.

Context {D : Type} {Drv : Driver.Driver D} {Fac : Driver_factory.Driver_factory D}.
Variable Session_label : string -> string.
Variable Session_policy : string -> option Xml_node.
Variable value : string -> Z -> Z.

Local Abbreviation create_session := (_create_session Session_label Session_policy value).

Lemma detect_size_no_throw fuel (s : Session_component D) e s' :
  _detect_size fuel s <> Throw e s'.
Proof.
  assert (Hk : preserves (fun _ _ => True) True (_detect_size (D:=D) fuel))
    by (apply keeps_detect_size; done).
  intros Hrun. specialize (Hk s). by rewrite Hrun in Hk.
Qed.

Lemma new_Session_component_no_throw fuel index baudrate detect_size r e r' :
  new_Session_component fuel index baudrate detect_size r <> Throw e r'.
Proof.
  unfold new_Session_component, bind, modify, on_object.
  destruct detect_size; [|done].
  pose proof (detect_size_no_throw fuel (members index baudrate)) as Hd.
  destruct (_detect_size fuel (members index baudrate)) as [sz s|e' s|s]; [done| |done].
  by destruct (Hd e' s).
Qed.

(** X14. Every session the constructor hands out has an I/O buffer of
    [IO_BUFFER_SIZE] bytes, and keeps it through whatever it serves. *)
Lemma constructed_io_buffer_size fuel index baudrate detect_size r s r' rs s' :
  new_Session_component fuel index baudrate detect_size r = Done s r' ->
  serve rs s = Done tt s' ->
  io_buffer_size s' = IO_BUFFER_SIZE.
Proof.
  intros Hnew Hserve.
  destruct (serve_same_size rs s) as (s'' & Hrun & _ & Hsame).
  rewrite Hserve in Hrun. injection Hrun as <-. rewrite Hsame. clear Hserve Hsame.
  assert (Hm : io_buffer_size (members index baudrate) = IO_BUFFER_SIZE).
  { unfold io_buffer_size.
    change (_io_buffer (members index baudrate))
      with (replicate (N.to_nat IO_BUFFER_SIZE) x00).
    rewrite length_replicate. apply N2Nat.id. }
  revert Hnew. unfold new_Session_component, bind, modify, on_object, ret.
  destruct detect_size; [|by intros [= <- _]].
  assert (Hk : preserves (fun s1 s2 : Session_component D =>
                            io_buffer_size s2 = io_buffer_size s1) True
                 (_detect_size fuel)).
  { apply keeps_detect_size;
      first [done
            |intros; congruence
            |intros; unfold io_buffer_size; simpl; by rewrite length_insert]. }
  specialize (Hk (members index baudrate)).
  destruct (_detect_size fuel (members index baudrate)) as [sz obj|e obj|obj];
    [|done|done].
  intros [= <- _]. simpl in Hk. unfold io_buffer_size in *. simpl. by rewrite Hk.
Qed.

(** C6. Whatever operations a session serves, baud rate changes among
    them, they all return and [size()] afterwards returns the [_size] the
    session had before them; [baud_rate] itself changes the driver only;
    and the constructor sets [_size] to what [_detect_size] returned, or to
    Size(0, 0) when detection is off. *)
Theorem size_is_frozen :
  (forall (s : Session_component D) (rs : list Request),
     exists s', serve rs s = Done tt s' /\ size s' = Done (_size s) s')
  /\ (forall (s : Session_component D) (bits : N),
        baud_rate bits s = Done tt (set_driver (Driver.baud_rate bits (_driver s)) s))
  /\ (forall fuel index baudrate (detect_size : bool) r s r',
        new_Session_component fuel index baudrate detect_size r = Done s r' ->
        if detect_size
        then exists obj, _detect_size fuel (members index baudrate) = Done (_size s) obj
        else _size s = mkSize 0 0).
Proof.
  repeat split.
  - intros s rs. destruct (serve_same_size rs s) as (s' & Hrun & Hsize & _).
    exists s'. split; [done|]. unfold size, bind, get, ret. by rewrite Hsize.
  - intros fuel index baudrate detect_size r s r'.
    unfold new_Session_component, bind, modify, on_object, ret.
    destruct detect_size.
    + destruct (_detect_size fuel (members index baudrate)) as [sz obj|e obj|obj]; [|done|done].
      intros [= <- _]. by exists obj.
    + by intros [= <- _].
Qed.

(** C4. A label that no policy matches, and a policy without the
    attribute uart, make [_create_session] throw Root::Unavailable with no
    session object, dataspace or driver taken. With uart present nothing
    is thrown, whether or not baudrate and detect_size are there; without
    those two the session is created with baud rate 0 and no size
    detection. *)
Theorem create_session_unavailable (fuel : nat) (args : string) (r : Resources) :
  (Session_policy (Session_label args) = None ->
   create_session fuel args r = Throw Unavailable r)
  /\ (forall node, Session_policy (Session_label args) = Some node ->
        node !! "uart" = None ->
        create_session fuel args r = Throw Unavailable r)
  /\ (forall node uart, Session_policy (Session_label args) = Some node ->
        node !! "uart" = Some uart ->
        (forall e r', create_session fuel args r <> Throw e r')
        /\ (node !! "baudrate" = None -> node !! "detect_size" = None ->
            create_session fuel args r =
              Done (members (value uart 0) 0)
                (take_driver (value uart 0) 0
                   (take_dataspace IO_BUFFER_SIZE (take_session_object r))))).
Proof.
  unfold _create_session, try_catch, bind, policy_for, attribute.
  split; [by intros ->|]. split.
  - intros node -> Hu. simpl. by rewrite Hu.
  - intros node uart -> Hu. simpl. rewrite Hu. simpl. split.
    + intros e r'.
      destruct (node !! "baudrate"), (node !! "detect_size"); simpl; try done;
        match goal with
        | |- context [new_Session_component ?f ?i ?b ?d ?r] =>
            pose proof (new_Session_component_no_throw f i b d r) as Hn;
            destruct (new_Session_component f i b d r) as [?|e' r''|?];
            [done|by destruct (Hn e' r'')|done]
        end.
    + intros Hb Hd. by rewrite Hb, Hd.
Qed.

End Root_facts.


Lemma size_is_frozen_witness :
  let F := Scripted.factory [None; Some "x"%byte] in
  let s := set_driver (Scripted.mk [] (set_cursor_sequence ++ request_cursor_sequence) 0%N)
             (members (Fac:=F) 1 0) in
  let r' := mkResources [4096%N] [(1, 0)] 1 in
  new_Session_component (Fac:=F) 8 1 0 true no_resources = Done s r'
  /\ exists obj, _detect_size 8 (members (Fac:=F) 1 0) = Done (_size s) obj.
Proof.
  intros F s r'. split; [vm_compute; reflexivity|].
  apply (proj2 (proj2 (size_is_frozen (Fac:=F))) 8%nat 1 0 true no_resources s r').
  vm_compute. reflexivity.
Defined.

Lemma create_session_unavailable_witness :
  example_policy (id "intruder") = None
  /\ _create_session (Fac:=Scripted.factory []) id example_policy example_value
       0 "intruder" no_resources
     = Throw Unavailable no_resources.
Proof.
  split; [vm_compute; reflexivity|].
  apply (proj1 (create_session_unavailable (Fac:=Scripted.factory [])
                  id example_policy example_value 0 "intruder" no_resources)).
  vm_compute. reflexivity.
Defined.

Section Logging_is_transparent.

Import Logged.
Context {D : Type} {Drv : Driver.Driver D}.

Lemma mirrors_ret {A} (a : A) : mirrors (D:=D) (ret a) (ret a).
Proof. done. Qed.

Lemma mirrors_spin {A} : mirrors (D:=D) (A:=A) spin spin.
Proof. done. Qed.

Lemma mirrors_bind {A B} m1 m2 (k1 : A -> M _ B) k2 :
  mirrors (D:=D) m1 m2 -> (forall a, mirrors (k1 a) (k2 a)) ->
  mirrors (bind m1 k1) (bind m2 k2).
Proof.
  intros Hm Hk s. unfold bind. rewrite <- (Hm s).
  destruct (m1 s) as [a s'|e s'|s']; simpl; [apply Hk|done|done].
Qed.

Lemma mirrors_get_bind {B} (k1 : _ -> M _ B) k2 :
  (forall s, mirrors (D:=D) (k1 s) (k2 (erase s))) ->
  mirrors (bind get k1) (bind get k2).
Proof. intros Hk s. apply Hk. Qed.

Lemma mirrors_modify (f1 : Session_component (Logged D) -> _) f2 :
  (forall s, erase (f1 s) = f2 (erase s)) -> mirrors (modify f1) (modify f2).
Proof. intros Hf s. simpl. by rewrite Hf. Qed.

Lemma mirrors_char_avail : mirrors (D:=D) driver_char_avail driver_char_avail.
Proof.
  intros s. unfold driver_char_avail. simpl.
  by destruct (Driver.char_avail (inner (_driver s))).
Qed.

Lemma mirrors_get_char : mirrors (D:=D) driver_get_char driver_get_char.
Proof.
  intros s. unfold driver_get_char. simpl.
  by destruct (Driver.get_char (inner (_driver s))).
Qed.

Lemma mirrors_put_char c : mirrors (D:=D) (driver_put_char c) (driver_put_char c).
Proof. done. Qed.

Lemma mirrors_baud_rate bits : mirrors (D:=D) (driver_baud_rate bits) (driver_baud_rate bits).
Proof. done. Qed.

Lemma mirrors_if {A} (b : bool) (m1 m1' : M _ A) m2 m2' :
  mirrors (D:=D) m1 m2 -> mirrors m1' m2' ->
  mirrors (if b then m1 else m1') (if b then m2 else m2').
Proof. by destruct b. Qed.

#[local] Hint Resolve mirrors_ret mirrors_spin mirrors_char_avail mirrors_get_char
  mirrors_put_char mirrors_baud_rate mirrors_if : mirrors.
#[local] Hint Extern 1 (mirrors (bind get _) (bind get _)) =>
  apply mirrors_get_bind; intros : mirrors.
#[local] Hint Extern 2 (mirrors (bind _ _) (bind _ _)) =>
  apply mirrors_bind; [|intros] : mirrors.
#[local] Hint Extern 2 (mirrors (modify _) (modify _)) =>
  apply mirrors_modify; intros; reflexivity : mirrors.

Lemma mirrors_poll_char_wait fuel : mirrors (D:=D) (_poll_char_wait fuel) (_poll_char_wait fuel).
Proof. induction fuel as [|fuel IH]; simpl; auto with mirrors. Qed.

Lemma mirrors_poll_char fuel : mirrors (D:=D) (_poll_char fuel) (_poll_char fuel).
Proof. unfold _poll_char. auto using mirrors_poll_char_wait with mirrors. Qed.

Lemma mirrors_put_string cs : mirrors (D:=D) (_put_string cs) (_put_string cs).
Proof. induction cs as [|c cs IH]; simpl; auto with mirrors. Qed.

Lemma mirrors_read_number_loop pf fuel : forall result,
  mirrors (D:=D) (_read_number_loop pf fuel result) (_read_number_loop pf fuel result).
Proof.
  induction fuel as [|fuel IH]; intros result; simpl;
    auto using mirrors_poll_char with mirrors.
Qed.

Lemma mirrors_flush_incoming fuel : mirrors (D:=D) (flush_incoming fuel) (flush_incoming fuel).
Proof. induction fuel as [|fuel IH]; simpl; auto 6 with mirrors. Qed.

Lemma mirrors_detect_size fuel : mirrors (D:=D) (_detect_size fuel) (_detect_size fuel).
Proof.
  unfold _detect_size, _read_number.
  auto 20 using mirrors_poll_char, mirrors_put_string, mirrors_read_number_loop,
    mirrors_flush_incoming with mirrors.
Qed.

Lemma mirrors_read_loop k : forall n, mirrors (D:=D) (_read_loop k n) (_read_loop k n).
Proof. induction k as [|k IH]; intros n; simpl; auto 8 with mirrors. Qed.

Lemma mirrors_read dst_len : mirrors (D:=D) (_read dst_len) (_read dst_len).
Proof. unfold _read. auto using mirrors_read_loop with mirrors. Qed.

Lemma mirrors_write_loop k : forall i, mirrors (D:=D) (_write_loop k i) (_write_loop k i).
Proof. induction k as [|k IH]; intros i; simpl; auto 8 with mirrors. Qed.

Lemma mirrors_write num_bytes : mirrors (D:=D) (_write num_bytes) (_write num_bytes).
Proof. unfold _write. auto using mirrors_write_loop with mirrors. Qed.

Lemma mirrors_dispatch r : mirrors (D:=D) (dispatch r) (dispatch r).
Proof.
  destruct r; simpl;
    unfold baud_rate, size, avail, _dataspace, connected_sigh,
      read_avail_sigh, read, write, char_avail_callback, submit;
    auto 10 using mirrors_read, mirrors_write with mirrors.
Qed.

Lemma mirrors_serve rs : mirrors (D:=D) (serve rs) (serve rs).
Proof. induction rs as [|r rs IH]; simpl; auto using mirrors_dispatch with mirrors. Qed.

(** The log changes nothing: behind it, the session does what it does on
    the driver alone. *)
Lemma logging_is_transparent (s : Session_component (Logged D)) (fuel : nat) :
  erase_outcome (_poll_char fuel s) = _poll_char fuel (erase s)
  /\ erase_outcome (_detect_size fuel s) = _detect_size fuel (erase s)
  /\ (forall dst_len, erase_outcome (_read dst_len s) = _read dst_len (erase s))
  /\ (forall num_bytes, erase_outcome (_write num_bytes s) = _write num_bytes (erase s))
  /\ (forall rs, erase_outcome (serve rs s) = serve rs (erase s)).
Proof.
  repeat split; intros;
    [apply mirrors_poll_char|apply mirrors_detect_size|apply mirrors_read
    |apply mirrors_write|apply mirrors_serve].
Qed.

End Logging_is_transparent.

(** * Further properties *)

Section Logged_extra.

Import Logged.
Context {D : Type} {Drv : Driver.Driver D}.
Local Abbreviation Session := (Session_component (Logged D)).

(** X1. [_put_string] passes the characters of the string before its first
    NUL to [put_char], one call each and in order; it makes no other call
    to the driver and changes nothing else. *)
Theorem put_string_until_nul (cs : list byte) (s : Session) :
  _put_string cs s =
    Done tt
      (set_driver
         (mk (foldl (fun d c => Driver.put_char c d) (inner (_driver s)) (c_string cs))
             (calls (_driver s) ++ (Put_char <$> c_string cs)))
         s).
Proof.
  revert s. induction cs as [|c cs IH]; intros s; simpl.
  - rewrite app_nil_r. by destruct s as [? ? [? ?] ? ?].
  - destruct (Byte.eqb c x00); simpl.
    + rewrite app_nil_r. by destruct s as [? ? [? ?] ? ?].
    + unfold bind, driver_put_char, modify. rewrite IH. simpl.
      by rewrite <- app_assoc.
Qed.

Lemma poll_char_wait_log fuel : forall (s s' : Session),
  _poll_char_wait fuel s = Done tt s' ->
  exists k d, s' = set_driver (mk d (calls (_driver s)
                                       ++ replicate k (Char_avail false)
                                       ++ [Char_avail true])) s.
Proof.
  induction fuel as [|fuel IH]; intros s s' Hrun; simpl in Hrun; [done|].
  unfold bind in Hrun.
  destruct (Driver.char_avail (inner (_driver s))) as [b d] eqn:Ea.
  rewrite (logged_char_avail s b d Ea) in Hrun. destruct b; simpl in Hrun.
  - injection Hrun as <-. by exists 0%nat, d.
  - apply IH in Hrun as (k & d' & ->). exists (S k), d'.
    unfold set_driver, log. simpl. by rewrite <- app_assoc.
Qed.

(** X2. When [_poll_char] returns, it has asked [char_avail] until the
    first yes and then called [get_char] once; the character it returns is
    the one that [get_char] gave. It makes no other call. *)
Theorem poll_char_first_available (fuel : nat) (s s' : Session) (c : byte) :
  _poll_char fuel s = Done c s' ->
  exists k d,
    s' = set_driver
           (mk d (calls (_driver s) ++ replicate k (Char_avail false)
                    ++ [Char_avail true; Get_char c]))
           s.
Proof.
  unfold _poll_char, bind. intros Hrun.
  destruct (_poll_char_wait fuel s) as [[] s1|e s1|s1] eqn:Hw; [|done|done].
  apply poll_char_wait_log in Hw as (k & d1 & ->).
  destruct (Driver.get_char d1) as [c' d2] eqn:Eg.
  set (s1 := set_driver _ s) in Hrun.
  rewrite (logged_get_char s1 c' d2 Eg) in Hrun. injection Hrun as <- <-.
  exists k, d2. unfold s1, set_driver, log. simpl.
  by rewrite <- !app_assoc.
Qed.

(** X3. What [_read] has just put into the I/O buffer, [_write] of the
    returned count sends back: the [put_char] calls are the characters
    that the [get_char] calls returned, in the same order. *)
Theorem read_then_write_echoes (s : Session) (dst_len : N) :
  exists cs s1,
    _read dst_len s = Done (N.of_nat (length cs)) s1
    /\ (exists last, calls (_driver s1) = calls (_driver s) ++ taken cs ++ last
                     /\ (last = [] \/ last = [Char_avail false]))
    /\ _write (N.of_nat (length cs)) s1 =
         Done tt
           (set_driver
              (mk (foldl (fun d c => Driver.put_char c d) (inner (_driver s1)) cs)
                  (calls (_driver s1) ++ (Put_char <$> cs)))
              s1).
Proof.
  destruct (read_logged s dst_len) as (cs & d & Hread & Hn). simpl in Hread, Hn.
  eexists cs, _. split; [exact Hread|]. split.
  - eexists. split; [reflexivity|]. destruct (_ <? _)%N; auto.
  - match goal with |- _write _ ?s1 = _ => pose proof (write_logged s1 (N.of_nat (length cs))) as [Hw _] end.
    rewrite Hw. clear Hw. do 2 f_equal.
    assert (Hlen : (length cs <= length (_io_buffer s))%nat)
      by (unfold io_buffer_size in Hn; lia).
    assert (Htake : take (N.to_nat (N.min (N.of_nat (length cs))
                      (io_buffer_size (set_io_buffer (cs ++ drop (length cs) (_io_buffer s))
                         (set_driver (mk d (log s ++ taken cs ++
                            (if (N.of_nat (length cs) <? N.min dst_len (io_buffer_size s))%N
                             then [Char_avail false] else []))) s)))))
                    (cs ++ drop (length cs) (_io_buffer s)) = cs).
    { apply take_app_length'. unfold io_buffer_size. simpl.
      rewrite length_app, length_drop. lia. }
    simpl. unfold log in *. by rewrite Htake.
Qed.

Lemma baud_calls_app t1 t2 : baud_calls (t1 ++ t2) = baud_calls t1 ++ baud_calls t2.
Proof. apply omap_app. Qed.

Lemma baud_calls_taken cs : baud_calls (taken cs) = [].
Proof. induction cs as [|c cs IH]; [done|]. simpl. exact IH. Qed.

Lemma baud_calls_put cs : baud_calls (Put_char <$> cs) = [].
Proof. induction cs as [|c cs IH]; [done|]. simpl. exact IH. Qed.

Lemma dispatch_baud_calls (r : Request) (s : Session) :
  exists a s' new,
    dispatch r s = Done a s'
    /\ calls (_driver s') = calls (_driver s) ++ new
    /\ baud_calls new = baud_requests [r].
Proof.
  destruct r as [bits| | |n|n| |sigh|sigh|n|n|]; simpl.
  - eexists _, _, [Baud_rate bits]. by repeat split.
  - eexists _, _, []. by rewrite app_nil_r.
  - unfold bind, avail.
    destruct (Driver.char_avail (inner (_driver s))) as [b d] eqn:Ea.
    rewrite (logged_char_avail s b d Ea). by eexists _, _, [Char_avail b].
  - destruct (read_logged s n) as (cs & d & Hread & _). simpl in Hread.
    unfold bind. rewrite Hread. eexists _, _, _. split; [done|]. split; [done|].
    rewrite baud_calls_app, baud_calls_taken. by destruct (_ <? _)%N.
  - destruct (write_logged s n) as [Hw _]. unfold bind. rewrite Hw.
    eexists _, _, _. split; [done|]. split; [done|]. apply baud_calls_put.
  - eexists _, _, []. by rewrite app_nil_r.
  - eexists _, _, []. by rewrite app_nil_r.
  - unfold bind, read_avail_sigh, bind, modify.
    destruct (Driver.char_avail (inner (_driver s))) as [b d] eqn:Ea.
    rewrite (logged_char_avail (set_sigh sigh s) b d Ea).
    unfold char_avail_callback, bind, get, submit, modify, ret. simpl.
    destruct b; simpl; [destruct (valid sigh); simpl|];
      by eexists _, _, [Char_avail _].
  - eexists _, _, []. by rewrite app_nil_r.
  - eexists _, _, []. by rewrite app_nil_r.
  - unfold bind, char_avail_callback, bind, get, submit, modify, ret.
    destruct (valid _); eexists _, _, []; by rewrite app_nil_r.
Qed.

(** X4. Every [baud_rate] request reaches the driver as one [baud_rate]
    call with the same value, in the order of the requests, and no other
    operation of the session sets the baud rate. *)
Theorem baud_rate_forwarded (rs : list Request) (s : Session) :
  exists s' new,
    serve rs s = Done tt s'
    /\ calls (_driver s') = calls (_driver s) ++ new
    /\ baud_calls new = baud_requests rs.
Proof.
  revert s. induction rs as [|r rs IH]; intros s; simpl.
  - exists s, []. by rewrite app_nil_r.
  - destruct (dispatch_baud_calls r s) as (a & s1 & new1 & Hr & Hc1 & Hb1).
    destruct (IH s1) as (s' & new & Hrs & Hc & Hb).
    exists s', (new1 ++ new). unfold bind. rewrite Hr. split; [done|].
    split; [by rewrite Hc, Hc1, app_assoc|].
    rewrite baud_calls_app, Hb, Hb1.
    unfold baud_requests. simpl. by destruct r.
Qed.

End Logged_extra.

Section Handler.

Context {D : Type} {Drv : Driver.Driver D}.
Local Abbreviation Session := (Session_component D).

Lemma callbacks_signal n : forall s : Session,
  serve (replicate n Driver_char_avail_callback) s =
    Done tt
      (set_signals
         (signals s ++ if valid (_char_avail_callback s)
                       then replicate n (_char_avail_callback s) else [])
         s).
Proof.
  induction n as [|n IH]; intros s; simpl.
  - destruct (valid _); rewrite app_nil_r; by destruct s.
  - unfold bind, char_avail_callback, bind, get, submit, modify, ret.
    destruct (valid (_char_avail_callback s)) eqn:Hv; simpl; rewrite IH; simpl;
      rewrite Hv; [|done].
    by rewrite <- app_assoc.
Qed.

(** X5. The driver's callback submits one signal per call to the handler
    registered last, and none while the handler is invalid: after
    [read_avail_sigh(sigh)], whatever handler was there before, [n] calls
    of the callback submit [n] signals to [sigh] if it is valid and
    nothing otherwise, on top of the catch-up signal of the
    registration. *)
Theorem callback_signals_last_handler (s : Session) (sigh : Signal_context_capability)
    (n : nat) :
  let answer := Driver.char_avail (_driver s) in
  serve (Call_read_avail_sigh sigh :: replicate n Driver_char_avail_callback) s =
    Done tt
      (mkSession (_io_buffer s) sigh (answer.2) (_size s)
         (signals s
            ++ (if answer.1 && valid sigh then [sigh] else [])
            ++ (if valid sigh then replicate n sigh else []))).
Proof.
  simpl. unfold bind at 1. unfold bind at 1.
  unfold read_avail_sigh, bind, modify, driver_char_avail. simpl.
  destruct (Driver.char_avail (_driver s)) as [b d]. simpl.
  unfold char_avail_callback, bind, get, submit, modify, ret. simpl.
  destruct b; simpl; [destruct (valid sigh) eqn:Hv; simpl|];
    rewrite callbacks_signal; simpl; try rewrite Hv; simpl;
    try rewrite app_nil_r; try done.
  by rewrite <- app_assoc.
Qed.

(** X6. [size], [_dataspace] and the unused entry points [read] and
    [write] change nothing in the session and make no call to the driver,
    in any number and order and for any argument; [read] and [write]
    report 0 bytes whatever length they are given. *)
Theorem passive_requests_change_nothing (s : Session) :
  (forall rs, forallb passive rs = true -> serve rs s = Done tt s)
  /\ (forall n, dispatch (Call_read n) s = Done (Reply_count 0) s)
  /\ (forall n, dispatch (Call_write n) s = Done (Reply_count 0) s).
Proof.
  split; [|done]. intros rs. revert s.
  induction rs as [|r rs IH]; intros s Hrs; simpl in *; [done|].
  apply andb_prop in Hrs as [Hr Hrs].
  destruct r; try discriminate Hr; unfold bind; simpl; by apply IH.
Qed.

End Handler.

Lemma passive_requests_change_nothing_witness :
  let s := Scripted.session [Some "a"%byte] [] in
  forallb passive [Call_size; Call_read 7; Call__dataspace; Call_write 9] = true
  /\ serve [Call_size; Call_read 7; Call__dataspace; Call_write 9] s = Done tt s.
Proof.
  intros s. split; [reflexivity|].
  apply (proj1 (passive_requests_change_nothing s)). reflexivity.
Defined.

Section Configured.

Context {D : Type} {Drv : Driver.Driver D} {Fac : Driver_factory.Driver_factory D}.
Variable Session_label : string -> string.
Variable Session_policy : string -> option Xml_node.
Variable value : string -> Z -> Z.

Local Abbreviation create_session := (_create_session Session_label Session_policy value).

Lemma create_session_with_uart fuel args r node uart :
  Session_policy (Session_label args) = Some node ->
  node !! "uart" = Some uart ->
  create_session fuel args r =
    new_Session_component fuel (value uart 0) (configured_baudrate value node)
      (configured_detect_size node) r.
Proof.
  intros Hp Hu.
  unfold _create_session, try_catch, bind, policy_for, attribute,
    configured_baudrate, configured_detect_size.
  rewrite Hp. simpl. rewrite Hu. simpl.
  destruct (node !! "baudrate"), (node !! "detect_size"); simpl; try done;
    match goal with
    | |- context [new_Session_component ?f ?i ?b ?d ?r] =>
        pose proof (new_Session_component_no_throw f i b d r) as Hn;
        destruct (new_Session_component f i b d r) as [?|e' r''|?];
        [done|by destruct (Hn e' r'')|done]
    end.
Qed.

Lemma configured_detect_size_yes node :
  configured_detect_size node = true <-> node !! "detect_size" = Some "yes".
Proof.
  unfold configured_detect_size, has_value.
  destruct (node !! "detect_size") as [text|]; [|done].
  rewrite bool_decide_eq_true. split; congruence.
Qed.

(** X7. With the attribute uart present, any detect_size attribute other
    than exactly "yes", like no such attribute, gives a session without
    size detection: [_create_session] returns at once (no fuel is needed),
    with the driver of UART [value uart] at the baud rate of the attribute
    baudrate (0 without it), [_size] Size(0, 0) and nothing written to the
    line. *)
Theorem create_session_without_detection fuel args r node uart :
  Session_policy (Session_label args) = Some node ->
  node !! "uart" = Some uart ->
  node !! "detect_size" <> Some "yes" ->
  create_session fuel args r =
    Done (members (value uart 0) (configured_baudrate value node))
      (session_taken (value uart 0) (configured_baudrate value node) r).
Proof.
  intros Hp Hu Hd. rewrite (create_session_with_uart _ _ _ _ _ Hp Hu).
  destruct (configured_detect_size node) eqn:Hc; [|done].
  by apply configured_detect_size_yes in Hc.
Qed.

(** X8. With detect_size="yes", [_create_session] returns exactly when
    [_detect_size] returns on the new object, with [_size] set to its
    result; the session object, the dataspace and the driver are taken
    before the detection starts, so a creation that is still waiting for
    the terminal already holds them. *)
Theorem create_session_with_detection fuel args r node uart :
  Session_policy (Session_label args) = Some node ->
  node !! "uart" = Some uart ->
  node !! "detect_size" = Some "yes" ->
  let index := value uart 0 in
  let baudrate := configured_baudrate value node in
  match _detect_size fuel (members index baudrate) with
  | Done sz obj =>
      create_session fuel args r = Done (set_size sz obj) (session_taken index baudrate r)
  | Spin _ => create_session fuel args r = Spin (session_taken index baudrate r)
  | Throw _ _ => False
  end.
Proof.
  intros Hp Hu Hd index baudrate. rewrite (create_session_with_uart _ _ _ _ _ Hp Hu).
  rewrite (proj2 (configured_detect_size_yes node) Hd).
  unfold new_Session_component, bind, modify, on_object, ret.
  pose proof (detect_size_no_throw fuel (members index baudrate)) as Hn.
  fold index baudrate.
  destruct (_detect_size fuel (members index baudrate)) as [sz obj|e obj|obj];
    [done|by destruct (Hn e obj)|done].
Qed.

End Configured.

Section Scripted_extra.

Import Scripted Report.
Local Abbreviation Session := (Session_component Line).

Lemma decimal_from_nonneg ds : forall v, 0 <= v -> digits ds -> 0 <= decimal_from v ds.
Proof.
  induction ds as [|d ds IH]; intros v Hv Hds; simpl; [done|].
  inversion_clear Hds as [|? ? Hd Hds']. apply IH; [|done].
  unfold is_digit, digit in *. apply andb_prop in Hd as [H1 _]. lia.
Qed.

(** X9. [_read_number] returns the decimal value of the digits it reads,
    reduced modulo 2^32 (the exact value when that is below 2^32), and the
    character that ended them; that character is taken from the line too,
    and what follows it stays. *)
Theorem read_number_decimal (s : Session) (fuel : nat) ds c rest :
  chars (rx (_driver s)) = ds ++ c :: rest ->
  digits ds -> is_digit c = false ->
  (length (rx (_driver s)) <= fuel)%nat ->
  (exists r', _read_number fuel s = Done (c, decimal ds mod 2 ^ 32) (with_rx r' s)
              /\ chars r' = rest)
  /\ (decimal ds < 2 ^ 32 -> decimal ds mod 2 ^ 32 = decimal ds).
Proof.
  intros Hc Hds Hd Hf. split.
  - destruct (read_number_complete fuel fuel (rx (_driver s)) 0 s c (number ds) rest)
      as (r' & Hrun & Hr & _); [by rewrite Hc; apply read_number_digits|done..|].
    exists r'. split; [|done]. unfold _read_number.
    rewrite <- (with_rx_id s) at 1. rewrite Hrun. by rewrite number_decimal.
  - intros Hlt. apply Z.mod_small. split; [|done].
    by apply decimal_from_nonneg.
Qed.

Lemma read_number_decimal_witness :
  let s := session (Some <$> String.list_byte_of_string "0199;") [] in
  chars (rx (_driver s)) = String.list_byte_of_string "0199" ++ ";"%byte :: []
  /\ exists r', _read_number 5 s = Done (";"%byte, decimal (String.list_byte_of_string "0199") mod 2 ^ 32)
                                    (with_rx r' s)
                /\ chars r' = [].
Proof.
  intros s. split; [reflexivity|].
  apply (proj1 (read_number_decimal s 5 (String.list_byte_of_string "0199") ";"%byte []
                  eq_refl ltac:(by repeat constructor) eq_refl ltac:(simpl; lia))).
Defined.




Lemma detect_size_result_eq fuel (s : Session) :
  (length (rx (_driver s)) < fuel)%nat ->
  result (_detect_size fuel s) = fst <$> cursor_report (chars (flushed (rx (_driver s)))).
Proof.
  intros Hf.
  destruct (cursor_report (chars (flushed (rx (_driver s))))) as [[sz rest]|] eqn:Hrep.
  - destruct (detect_size_complete fuel s sz rest Hrep Hf) as (r' & -> & _). done.
  - pose proof (detect_size_sound fuel s) as Hs.
    destruct (_detect_size fuel s) as [sz s'|e s'|s']; [|done|done].
    destruct Hs as (r' & _ & Hs). congruence.
Qed.

Lemma flushed_stale pre r : flushed ((Some <$> pre) ++ None :: r) = r.
Proof. induction pre as [|c pre IH]; [done|exact IH]. Qed.

(** X11. Characters that are waiting on the line when [_detect_size]
    starts do not reach the parser: whatever they are and however many,
    the result is the one obtained without them. *)
Theorem detect_size_ignores_stale (s : Session) (fuel : nat) (stale : list byte)
    (r : list (option byte)) :
  (length stale + S (length r) < fuel)%nat ->
  result (_detect_size fuel (with_rx ((Some <$> stale) ++ None :: r) s))
  = result (_detect_size fuel (with_rx (None :: r) s)).
Proof.
  intros Hf. rewrite !detect_size_result_eq.
  - simpl. by rewrite flushed_stale.
  - simpl. lia.
  - simpl. rewrite length_app, length_fmap. simpl. lia.
Qed.

Lemma detect_size_ignores_stale_witness :
  let s := session [] [] in
  let r := Some <$> x1b :: String.list_byte_of_string "[24;80R" in
  (length (String.list_byte_of_string "abc") + S (length r) < 16)%nat
  /\ result (_detect_size 16
               (with_rx ((Some <$> String.list_byte_of_string "abc") ++ None :: r) s))
     = result (_detect_size 16 (with_rx (None :: r) s)).
Proof.
  intros s r. split; [simpl; lia|].
  apply (detect_size_ignores_stale s 16 (String.list_byte_of_string "abc") r).
  simpl. lia.
Defined.

Lemma read_loop_scripted k : forall (n : N) r (s : Session),
  (N.to_nat n + k <= length (_io_buffer s))%nat ->
  let cs := take k (waiting r) in
  _read_loop k n (with_rx r s) =
    Done (n + N.of_nat (length cs))%N
      (set_io_buffer
         (take (N.to_nat n) (_io_buffer s) ++ cs
            ++ drop (N.to_nat n + length cs) (_io_buffer s))
         (with_rx (after_read k r) s)).
Proof.
  induction k as [|k IH]; intros n r s Hlen.
  - simpl. rewrite N.add_0_r, Nat.add_0_r, take_drop.
    by destruct s as [? ? [? ? ?] ? ?].
  - destruct r as [|[c|] r].
    + simpl. rewrite N.add_0_r, Nat.add_0_r, take_drop.
      by destruct s as [? ? [? ? ?] ? ?].
    + change (_read_loop (S k) n (with_rx (Some c :: r) s))
        with (_read_loop k (n + 1)%N (with_rx r (io_buf_store n c s))).
      rewrite (IH (n + 1)%N r (io_buf_store n c s)) by (simpl; rewrite length_insert; lia).
      simpl. f_equal; [lia|].
      unfold io_buf_store, set_io_buffer, with_rx, set_driver. simpl. f_equal.
      replace (N.to_nat (n + 1)) with (S (N.to_nat n)) by lia.
      rewrite (take_S_r _ _ c) by (apply list_lookup_insert_eq; lia).
      rewrite take_insert_ge by lia. rewrite drop_insert_lt by lia.
      rewrite <- !app_assoc. simpl. do 4 f_equal. lia.
    + simpl. rewrite N.add_0_r, Nat.add_0_r, take_drop.
      by destruct s as [? ? [? ? ?] ? ?].
Qed.

Lemma chars_after_read k : forall r,
  chars r = take k (waiting r) ++ chars (after_read k r).
Proof.
  induction k as [|k IH]; intros r; simpl; [done|].
  destruct r as [|[c|] r]; simpl; [done| |done].
  f_equal. apply IH.
Qed.

(** X12. [_read] does not wait: it takes the characters that are waiting
    on the line, up to min(dst_len, buffer size) of them, puts them at the
    start of the I/O buffer and returns their number. No character is lost
    or repeated: the characters taken, followed by those still to come,
    are the characters the line had. *)
Theorem read_takes_waiting (s : Session) (dst_len : N) :
  let sz := N.to_nat (N.min dst_len (io_buffer_size s)) in
  let cs := take sz (waiting (rx (_driver s))) in
  exists r',
    _read dst_len s =
      Done (N.of_nat (length cs))
        (set_io_buffer (cs ++ drop (length cs) (_io_buffer s)) (with_rx r' s))
    /\ chars (rx (_driver s)) = cs ++ chars r'.
Proof.
  intros sz cs. exists (after_read sz (rx (_driver s))). split.
  - unfold _read, bind, get. fold sz.
    rewrite <- (with_rx_id s) at 1.
    rewrite read_loop_scripted by (unfold sz, io_buffer_size; lia). done.
  - apply chars_after_read.
Qed.

(** X13. [avail] takes no character from the line, and when it answers
    true, a [_read] of a positive length into a buffer that is not empty
    returns at least one character. *)
Theorem avail_then_read (s : Session) (dst_len : N) :
  (0 < dst_len)%N -> (0 < io_buffer_size s)%N ->
  exists b s1,
    avail s = Done b s1
    /\ chars (rx (_driver s1)) = chars (rx (_driver s))
    /\ (b = true ->
        exists n s2, _read dst_len s1 = Done n s2 /\ (0 < n)%N).
Proof.
  intros Hd Hb. destruct s as [buf cb [r t bd] sz sg].
  destruct r as [|[c|] r].
  - eexists false, _. split; [reflexivity|]. split; [done|done].
  - eexists true, _. split; [reflexivity|]. split; [done|]. intros _.
    unfold _read, bind, get.
    match goal with |- context [_read_loop ?k _ ?s1] =>
      rewrite <- (with_rx_id s1);
      rewrite (read_loop_scripted k 0%N) by (unfold io_buffer_size; simpl; lia)
    end.
    eexists _, _. split; [reflexivity|].
    unfold io_buffer_size in *. simpl in *.
    destruct (N.to_nat (N.min dst_len (N.of_nat (length buf)))) eqn:E; [lia|].
    simpl. lia.
  - eexists false, _. split; [reflexivity|]. split; [done|done].
Qed.

Lemma avail_then_read_witness :
  let s := session [Some "a"%byte; Some "b"%byte] (replicate 4 x00) in
  (0 < 1)%N /\ (0 < io_buffer_size s)%N
  /\ exists b s1,
       avail s = Done b s1
       /\ chars (rx (_driver s1)) = chars (rx (_driver s))
       /\ (b = true -> exists n s2, _read 1 s1 = Done n s2 /\ (0 < n)%N).
Proof.
  intros s. split; [lia|]. split; [vm_compute; reflexivity|].
  apply (avail_then_read s 1); [lia|vm_compute; reflexivity].
Defined.

End Scripted_extra.

Lemma poll_char_first_available_witness :
  let s := logged_session [None; Some "a"%byte] [] in
  _poll_char 3 s = Done "a"%byte (final (_poll_char 3 s))
  /\ exists k d,
       final (_poll_char 3 s)
       = set_driver
           (Logged.mk d (Logged.calls (_driver s)
                           ++ replicate k (Logged.Char_avail false)
                           ++ [Logged.Char_avail true; Logged.Get_char "a"%byte]))
           s.
Proof.
  intros s. split; [vm_compute; reflexivity|].
  apply (poll_char_first_available 3 s (final (_poll_char 3 s)) "a"%byte).
  vm_compute. reflexivity.
Defined.

Lemma create_session_without_detection_witness :
  quiet_policy (id "client") = Some {[ "uart" := "1"; "baudrate" := "1"; "detect_size" := "Yes" ]}
  /\ _create_session (Fac:=Scripted.factory []) id quiet_policy example_value
       0 "client" no_resources
     = Done (members (Fac:=Scripted.factory []) 1 1) (session_taken 1 1 no_resources).
Proof.
  split; [reflexivity|].
  refine (eq_trans
            (create_session_without_detection (Fac:=Scripted.factory [])
               id quiet_policy example_value 0 "client" no_resources
               {[ "uart" := "1"; "baudrate" := "1"; "detect_size" := "Yes" ]} "1"
               _ _ _) _);
    [reflexivity|vm_compute; reflexivity|vm_compute; discriminate
    |vm_compute; reflexivity].
Defined.

Lemma create_session_with_detection_witness :
  let F := Scripted.factory [] in
  detecting_policy (id "client") = Some {[ "uart" := "1"; "detect_size" := "yes" ]}
  /\ _create_session (Fac:=F) id detecting_policy example_value 4 "client" no_resources
     = Spin (session_taken 1 0 no_resources).
Proof.
  intros F. split; [reflexivity|].
  pose proof (create_session_with_detection (Fac:=F)
                id detecting_policy example_value 4 "client" no_resources
                {[ "uart" := "1"; "detect_size" := "yes" ]} "1"
                eq_refl) as Hw.
  specialize (Hw ltac:(vm_compute; reflexivity) ltac:(vm_compute; reflexivity)).
  vm_compute in Hw. vm_compute. exact Hw.
Defined.

Lemma constructed_io_buffer_size_witness :
  let F := Scripted.factory [Some "a"%byte] in
  let rs := [Call__read 10; Call__write 5000; Call_baud_rate 9600] in
  new_Session_component (Fac:=F) 0 1 0 false no_resources
  = Done (members (Fac:=F) 1 0) (session_taken 1 0 no_resources)
  /\ io_buffer_size (final (serve rs (members (Fac:=F) 1 0))) = IO_BUFFER_SIZE.
Proof.
  intros F rs. split; [reflexivity|].
  apply (constructed_io_buffer_size (Fac:=F) 0 1 0 false no_resources
           (members (Fac:=F) 1 0) (session_taken 1 0 no_resources) rs).
  - reflexivity.
  - vm_compute. reflexivity.
Defined.

Section Twice.

Context {D : Type} {Drv : Driver.Driver D} {Fac : Driver_factory.Driver_factory D}.
Variable Session_label : string -> string.
Variable Session_policy : string -> option Xml_node.
Variable value : string -> Z -> Z.


End Twice.

